(** * blockgame: the frame stepper, the key handler and the renderer of
      [src/main.cpp], embedded over IEEE-754 binary32/binary64 arithmetic.

    The C++ program keeps its whole simulation in file-level [static]
    variables of type [float], [bool], [double] and [std::vector<Spike>].
    The embedding keeps them in one record, [Globals], and every function of
    the source that touches them becomes a function on that record.  [float]
    is modelled bit-exactly by [spec_float] at precision 24 and exponent
    bound 128, [double] at 53 and 1024, with the rounding functions of
    [SpecFloat]; nothing is idealised to real numbers.  Every arithmetic
    operator of the source is one correctly rounded binary32 operation
    (round to nearest, ties to even), evaluated in the order the C++
    expression gives, as the WebAssembly target of the program does. *)

From Stdlib Require Import ZArith List Bool String QArith Qround Lia.
From Stdlib Require Import Floats.SpecFloat.
Import ListNotations.
Close Scope Q_scope.

(** ** IEEE-754 formats *)

Section Format.
Variables prec emax : Z.

(** The value of an integer, rounded to the format. *)
Definition format_of_Z (n : Z) : spec_float :=
  binary_normalize prec emax n 0 false.

(** A decimal literal [n/d] (as in [0.02f] = 2/100): the nearest value of the
    format, ties to even. *)
Definition format_lit (n d : Z) : spec_float :=
  SFdiv prec emax (format_of_Z n) (format_of_Z d).

(** Round a value of another format to this one. *)
Definition format_round (a : spec_float) : spec_float :=
  match a with
  | S754_finite s m e => binary_round prec emax s m e
  | _ => a
  end.

End Format.

(** [float]: binary32. *)
Module F32.

Definition prec : Z := 24.
Definition emax : Z := 128.
Definition t : Type := spec_float.

Definition add : t -> t -> t := SFadd prec emax.
Definition sub : t -> t -> t := SFsub prec emax.
Definition mul : t -> t -> t := SFmul prec emax.
Definition opp : t -> t := SFopp.
Definition fabs : t -> t := SFabs.

(** C's [a < b] and [a >= b]; both are false when an operand is NaN. *)
Definition lt (a b : t) : bool := SFltb a b.
Definition ge (a b : t) : bool := SFleb b a.

Definition is_nan (a : t) : bool :=
  match a with S754_nan => true | _ => false end.

Definition of_Z : Z -> t := format_of_Z prec emax.
Definition lit : Z -> Z -> t := format_lit prec emax.

(** The conversion [float(d)] of a [double]. *)
Definition round : spec_float -> t := format_round prec emax.

End F32.

(** [double]: binary64. *)
Module F64.

Definition prec : Z := 53.
Definition emax : Z := 1024.
Definition t : Type := spec_float.

Definition sub : t -> t -> t := SFsub prec emax.
Definition div : t -> t -> t := SFdiv prec emax.
Definition of_Z : Z -> t := format_of_Z prec emax.

End F64.

Arguments F32.add : simpl never.
Arguments F32.sub : simpl never.
Arguments F32.mul : simpl never.
Arguments F32.lt : simpl never.
Arguments F32.ge : simpl never.
Arguments F32.round : simpl never.
Arguments F64.sub : simpl never.
Arguments F64.div : simpl never.

Definition float : Type := F32.t.
Definition double : Type := F64.t.

Declare Scope f32_scope.
Delimit Scope f32_scope with f32.
Infix "+" := F32.add : f32_scope.
Infix "-" := F32.sub : f32_scope.
Infix "*" := F32.mul : f32_scope.
Infix "<?" := F32.lt : f32_scope.
Infix ">=?" := F32.ge (at level 70) : f32_scope.

(** ** Constants of the program

    Each literal of the source is the correctly rounded binary32 value of its
    decimal text; the right-hand sides are evaluated once, here. *)

Definition zero : float := S754_zero false.                        (* 0.0f *)

(** [static float scrollSpeed = 0.02f] and [spikeSpawnInterval = 2.0f] are
    never assigned after their initialisation, so they are constants here. *)
Definition scrollSpeed : float := Eval vm_compute in F32.lit 2 100.
Definition spikeSpawnInterval : float := Eval vm_compute in F32.of_Z 2.

Definition gravity : float := Eval vm_compute in F32.opp (F32.lit 6 100).
Definition jumpVelocity : float := Eval vm_compute in F32.lit 2 100.

(** The literals of [update]: [-0.4f] (ground), [1.2f] (spawn abscissa),
    [-1.2f] (left edge), [60.0f], [0.05f] and [0.1f]. *)
Definition groundLevel : float := Eval vm_compute in F32.opp (F32.lit 4 10).
Definition spawnX : float := Eval vm_compute in F32.lit 12 10.
Definition despawnX : float := Eval vm_compute in F32.opp (F32.lit 12 10).
Definition sixty : float := Eval vm_compute in F32.of_Z 60.
Definition spikeWidth : float := Eval vm_compute in F32.lit 5 100.
Definition spikeHeight : float := Eval vm_compute in F32.lit 1 10.
Definition playerHalf : float := Eval vm_compute in F32.lit 5 100.
Definition one : float := Eval vm_compute in F32.of_Z 1.

(** Constants of [GLES2/gl2.h] used by [render]. *)
Definition GL_COLOR_BUFFER_BIT : Z := 16384.
Definition GL_ARRAY_BUFFER : Z := 34962.
Definition GL_FLOAT : Z := 5126.
Definition GL_TRIANGLES : Z := 4.

(** ** Program state *)

Record Spike := { x : float; y : float }.

(** Handles obtained once by [initGL]; [render] only reads them. *)
Record GLHandles := {
  program : Z;
  aPositionLoc : Z;
  uTranslationLoc : Z;
  uScaleLoc : Z;
  uColorLoc : Z;
  playerVBO : Z;
  spikeVBO : Z
}.

Record Globals := {
  gl : GLHandles;
  playerY : float;
  playerVelocity : float;
  isOnGround : bool;
  spikeSpawnTimer : float;
  lastFrameTime : double;
  spikes : list Spike
}.

Definition set_playerY (v : float) (g : Globals) : Globals :=
  {| gl := gl g; playerY := v; playerVelocity := playerVelocity g;
     isOnGround := isOnGround g; spikeSpawnTimer := spikeSpawnTimer g;
     lastFrameTime := lastFrameTime g; spikes := spikes g |}.

Definition set_playerVelocity (v : float) (g : Globals) : Globals :=
  {| gl := gl g; playerY := playerY g; playerVelocity := v;
     isOnGround := isOnGround g; spikeSpawnTimer := spikeSpawnTimer g;
     lastFrameTime := lastFrameTime g; spikes := spikes g |}.

Definition set_isOnGround (b : bool) (g : Globals) : Globals :=
  {| gl := gl g; playerY := playerY g; playerVelocity := playerVelocity g;
     isOnGround := b; spikeSpawnTimer := spikeSpawnTimer g;
     lastFrameTime := lastFrameTime g; spikes := spikes g |}.

Definition set_spikeSpawnTimer (v : float) (g : Globals) : Globals :=
  {| gl := gl g; playerY := playerY g; playerVelocity := playerVelocity g;
     isOnGround := isOnGround g; spikeSpawnTimer := v;
     lastFrameTime := lastFrameTime g; spikes := spikes g |}.

Definition set_lastFrameTime (v : double) (g : Globals) : Globals :=
  {| gl := gl g; playerY := playerY g; playerVelocity := playerVelocity g;
     isOnGround := isOnGround g; spikeSpawnTimer := spikeSpawnTimer g;
     lastFrameTime := v; spikes := spikes g |}.

Definition set_spikes (l : list Spike) (g : Globals) : Globals :=
  {| gl := gl g; playerY := playerY g; playerVelocity := playerVelocity g;
     isOnGround := isOnGround g; spikeSpawnTimer := spikeSpawnTimer g;
     lastFrameTime := lastFrameTime g; spikes := l |}.

(** The static initialisers of the source. *)
Definition initial (h : GLHandles) : Globals :=
  {| gl := h; playerY := zero; playerVelocity := zero; isOnGround := true;
     spikeSpawnTimer := zero; lastFrameTime := S754_zero false; spikes := [] |}.

(** ** Effects: calls that leave the program *)

Inductive Effect :=
| glClear (mask : Z)
| glUseProgram (prog : Z)
| glBindBuffer (target buffer : Z)
| glEnableVertexAttribArray (index : Z)
| glDisableVertexAttribArray (index : Z)
| glVertexAttribPointer (index size type : Z) (normalized : bool) (stride offset : Z)
| glUniform2f (location : Z) (v0 v1 : float)
| glUniform4f (location : Z) (v0 v1 v2 v3 : float)
| glDrawArrays (mode first count : Z)
| printf (text : string).

(** A computation reads and writes the globals and logs its outside calls. *)
Definition M (A : Type) : Type := Globals -> A * Globals * list Effect.

Definition ret {A} (a : A) : M A := fun g => (a, g, []).

Definition bind {A B} (m : M A) (k : A -> M B) : M B :=
  fun g =>
    let '(a, g1, o1) := m g in
    let '(b, g2, o2) := k a g1 in
    (b, g2, o1 ++ o2).

Definition gets {A} (f : Globals -> A) : M A := fun g => (f g, g, []).
Definition modify (f : Globals -> Globals) : M unit := fun g => (tt, f g, []).
Definition emit (e : Effect) : M unit := fun g => (tt, g, [e]).

Declare Scope prog_scope.
Delimit Scope prog_scope with prog.
Notation "v <- m ;; k" := (bind m (fun v => k))
  (at level 61, m at next level, right associativity) : prog_scope.
Notation "m ;; k" := (bind m (fun _ => k))
  (at level 61, right associativity) : prog_scope.

Definition exec {A} (m : M A) (g : Globals) : Globals := snd (fst (m g)).
Definition output {A} (m : M A) (g : Globals) : list Effect := snd (m g).

(** [for (auto &s : l) body(s);] without [break]. *)
Fixpoint for_each (l : list Spike) (body : Spike -> M unit) : M unit :=
  match l with
  | [] => ret tt
  | s :: rest => (body s ;; for_each rest body)%prog
  end.

(** ** [onKeyDown] *)

Definition onKeyDown (keyCode : Z) : M unit :=
  if (keyCode =? 32)%Z then
    (onGround <- gets isOnGround ;;
     if onGround then
       (modify (set_playerVelocity jumpVelocity) ;;
        modify (set_isOnGround false))
     else ret tt)%prog
  else ret tt.

(** ** [update], block by block *)

Open Scope f32_scope.

(** "Update player physics (gravity and jump)". *)
Definition updatePhysics (deltaTime : float) (g : Globals) : Globals :=
  let g := set_playerVelocity (playerVelocity g + gravity * deltaTime) g in
  let g := set_playerY (playerY g + playerVelocity g) g in
  if playerY g <? groundLevel then
    set_isOnGround true (set_playerVelocity zero (set_playerY groundLevel g))
  else g.

(** "Spawn spikes periodically". *)
Definition newSpike : Spike := {| x := spawnX; y := groundLevel |}.

Definition spawnSpikes (deltaTime : float) (g : Globals) : Globals :=
  let g := set_spikeSpawnTimer (spikeSpawnTimer g + deltaTime) g in
  if spikeSpawnTimer g >=? spikeSpawnInterval then
    set_spikes (spikes g ++ [newSpike]) (set_spikeSpawnTimer zero g)
  else g.

(** "Move spikes to the left". *)
Definition moveSpike (deltaTime : float) (spike : Spike) : Spike :=
  {| x := x spike - scrollSpeed * deltaTime * sixty; y := y spike |}.

Definition moveSpikes (deltaTime : float) (g : Globals) : Globals :=
  set_spikes (map (moveSpike deltaTime) (spikes g)) g.

(** "Remove spikes that have gone off-screen to the left": the erase/remove_if
    idiom drops the elements on which the predicate holds and keeps the
    others in their order. *)
Definition offscreen (s : Spike) : bool := x s <? despawnX.

Definition erase_remove_if (p : Spike -> bool) (l : list Spike) : list Spike :=
  filter (fun s => negb (p s)) l.

Definition removeOffscreen (g : Globals) : Globals :=
  set_spikes (erase_remove_if offscreen (spikes g)) g.

(** "Check collisions (using simple bounding boxes)". *)
Definition collisionX (spike : Spike) : bool :=
  F32.fabs (x spike - zero) <? spikeWidth + playerHalf.

Definition collisionY (spike : Spike) (py : float) : bool :=
  F32.fabs (y spike - py) <? spikeHeight + playerHalf.

Definition overlaps (py : float) (spike : Spike) : bool :=
  collisionX spike && collisionY spike py.

Definition newline : string := String (Ascii.ascii_of_nat 10) EmptyString.

Definition resetOnCollision : M unit :=
  (modify (set_playerY groundLevel) ;;
   modify (set_playerVelocity zero) ;;
   modify (set_isOnGround true) ;;
   modify (set_spikes []) ;;
   emit (printf ("Collision! Resetting..." ++ newline)))%prog.

(** The range-for with its [break]: [rest] is what the iterator has not yet
    visited; the player's ordinate is read at every test. *)
Fixpoint collisionLoop (rest : list Spike) : M unit :=
  match rest with
  | [] => ret tt
  | spike :: rest' =>
      (py <- gets playerY ;;
       if collisionX spike && collisionY spike py
       then resetOnCollision
       else collisionLoop rest')%prog
  end.

Definition checkCollisions : M unit :=
  (l <- gets spikes ;; collisionLoop l)%prog.

(** The body of [update] once [deltaTime] is known. *)
Definition step (deltaTime : float) : M unit :=
  (modify (updatePhysics deltaTime) ;;
   modify (spawnSpikes deltaTime) ;;
   modify (moveSpikes deltaTime) ;;
   modify removeOffscreen ;;
   checkCollisions)%prog.

Definition update (currentTime : double) : M unit :=
  (last <- gets lastFrameTime ;;
   let deltaTime := F32.round (F64.sub currentTime last) in
   modify (set_lastFrameTime currentTime) ;;
   step deltaTime)%prog.

(** The [deltaTime] that [update currentTime] computes in state [g]. *)
Definition deltaTimeAt (currentTime : double) (g : Globals) : float :=
  F32.round (F64.sub currentTime (lastFrameTime g)).

Close Scope f32_scope.

(** ** [render] *)

Definition render : M unit :=
  (h <- gets gl ;;
   emit (glClear GL_COLOR_BUFFER_BIT) ;;
   emit (glUseProgram (program h)) ;;
   emit (glBindBuffer GL_ARRAY_BUFFER (playerVBO h)) ;;
   emit (glEnableVertexAttribArray (aPositionLoc h)) ;;
   emit (glVertexAttribPointer (aPositionLoc h) 2 GL_FLOAT false 0 0) ;;
   py <- gets playerY ;;
   emit (glUniform2f (uTranslationLoc h) zero py) ;;
   emit (glUniform2f (uScaleLoc h) one one) ;;
   emit (glUniform4f (uColorLoc h) zero zero zero one) ;;
   emit (glDrawArrays GL_TRIANGLES 0 6) ;;
   emit (glBindBuffer GL_ARRAY_BUFFER (spikeVBO h)) ;;
   emit (glVertexAttribPointer (aPositionLoc h) 2 GL_FLOAT false 0 0) ;;
   emit (glUniform2f (uScaleLoc h) one one) ;;
   emit (glUniform4f (uColorLoc h) one one one one) ;;
   l <- gets spikes ;;
   for_each l (fun spike =>
     emit (glUniform2f (uTranslationLoc h) (x spike) (y spike)) ;;
     emit (glDrawArrays GL_TRIANGLES 0 3)) ;;
   emit (glDisableVertexAttribArray (aPositionLoc h)))%prog.

(** [mainLoop], with the reading of [emscripten_get_now()] as its argument. *)
Definition thousand : double := Eval vm_compute in F64.of_Z 1000.

Definition mainLoop (now : double) : M unit :=
  (let currentTime := F64.div now thousand in
   update currentTime ;;
   render)%prog.

(** ** Runs: what the host does to the program *)

Inductive Call :=
| Frame (deltaTime : float)      (* one [update] that measured [deltaTime] *)
| KeyDown (keyCode : Z).         (* one [onKeyDown] between two frames *)

Definition call (c : Call) (g : Globals) : Globals :=
  match c with
  | Frame dt => exec (step dt) g
  | KeyDown k => exec (onKeyDown k) g
  end.

Fixpoint run (cs : list Call) (g : Globals) : Globals :=
  match cs with
  | [] => g
  | c :: cs' => run cs' (call c g)
  end.

(** Every state the program goes through, the starting one included. *)
Fixpoint history (cs : list Call) (g : Globals) : list Globals :=
  g :: match cs with
       | [] => []
       | c :: cs' => history cs' (call c g)
       end.

(** [dt >= 0], the caller's obligation. *)
Definition nonneg (dt : float) : bool := (dt >=? zero)%f32.

Definition nonnegCall (c : Call) : bool :=
  match c with
  | Frame dt => nonneg dt
  | KeyDown _ => true
  end.

Definition frames (dts : list float) : list Call := map Frame dts.

(** The host itself calls [update] with clock readings.  A run of the host
    is the run of the frames it measures, the stored clock apart. *)
Inductive HostCall :=
| HostUpdate (currentTime : double)
| HostKey (keyCode : Z).

Definition hostCall (c : HostCall) (g : Globals) : Globals :=
  match c with
  | HostUpdate t => exec (update t) g
  | HostKey k => exec (onKeyDown k) g
  end.

Fixpoint hostRun (cs : list HostCall) (g : Globals) : Globals :=
  match cs with
  | [] => g
  | c :: cs' => hostRun cs' (hostCall c g)
  end.

Fixpoint measured (cs : list HostCall) (g : Globals) : list Call :=
  match cs with
  | [] => []
  | HostUpdate t :: cs' =>
      Frame (deltaTimeAt t g) :: measured cs' (hostCall (HostUpdate t) g)
  | HostKey k :: cs' => KeyDown k :: measured cs' (hostCall (HostKey k) g)
  end.

Definition forgetClock (g : Globals) : Globals :=
  set_lastFrameTime (S754_zero false) g.

(** ** Ghost observations used to state the properties *)

(** The state written by the collision branch. *)
Definition resetState (g : Globals) : Globals :=
  set_spikes [] (set_isOnGround true
    (set_playerVelocity zero (set_playerY groundLevel g))).

(** The state at the start of the collision scan of a frame. *)
Definition beforeScan (deltaTime : float) (g : Globals) : Globals :=
  removeOffscreen (moveSpikes deltaTime
    (spawnSpikes deltaTime (updatePhysics deltaTime g))).

(** Number of [push_back]s made by the spawn block of one frame. *)
Definition spawnedBy (deltaTime : float) (g : Globals) : nat :=
  List.length (spikes (spawnSpikes deltaTime g)) - List.length (spikes g).

Definition spawnedInFrame (deltaTime : float) (g : Globals) : nat :=
  spawnedBy deltaTime (updatePhysics deltaTime g).

(** Number of obstacles spawned along a run of frames. *)
Fixpoint spawnedDuring (dts : list float) (g : Globals) : nat :=
  match dts with
  | [] => 0
  | dt :: rest => spawnedInFrame dt g + spawnedDuring rest (exec (step dt) g)
  end.

(** The test of the spawn block, on the state at the start of the block. *)
Definition spawnDue (deltaTime : float) (g : Globals) : bool :=
  (spikeSpawnTimer g + deltaTime >=? spikeSpawnInterval)%f32.

(** The cadence in words: an accumulator that adds each [dt], and on reaching
    the interval counts one spawn and restarts from 0. *)
Fixpoint resetCadence (timer : float) (dts : list float) : nat :=
  match dts with
  | [] => 0
  | dt :: rest =>
      if (timer + dt >=? spikeSpawnInterval)%f32
      then S (resetCadence zero rest)
      else resetCadence (timer + dt)%f32 rest
  end.

(** The exact rational value of a finite binary32 number. *)
Definition toQ (a : float) : Q :=
  match a with
  | S754_finite s m e => (inject_Z (cond_Zopp s (Zpos m)) * Qpower 2 e)%Q
  | _ => 0%Q
  end.

Definition elapsed (dts : list float) : Q :=
  fold_right (fun dt acc => (toQ dt + acc)%Q) 0%Q dts.

(** How many multiples of the spawn interval lie in (0, elapsed]. *)
Definition crossings (dts : list float) : Z :=
  Qfloor (elapsed dts / toQ spikeSpawnInterval)%Q.

Definition belowGround (g : Globals) : bool := (playerY g <? groundLevel)%f32.

(** The handles as statically initialised, before [initGL] has run. *)
Definition staticHandles : GLHandles :=
  {| program := 0; aPositionLoc := -1; uTranslationLoc := -1;
     uScaleLoc := -1; uColorLoc := -1; playerVBO := 0; spikeVBO := 0 |}.

Definition start : Globals := initial staticHandles.

Definition onePointFive : float := Eval vm_compute in F32.lit 15 10.
Definition three : float := Eval vm_compute in F32.of_Z 3.
Definition five : float := Eval vm_compute in F32.of_Z 5.

(** A player standing on the ground with one spike right under it. *)
Definition spikeAtPlayer : Spike := {| x := zero; y := groundLevel |}.
Definition grounded : Globals :=
  set_spikes [spikeAtPlayer; newSpike] (set_playerY groundLevel start).

(** A player high in the air above a freshly spawned spike. *)
Definition airborne : Globals :=
  set_spikes [newSpike]
    (set_isOnGround false (set_playerY one start)).

(** The two blocks "move spikes" and "remove spikes" of one frame. *)
Definition scroll (deltaTime : float) (g : Globals) : Globals :=
  removeOffscreen (moveSpikes deltaTime g).

(** ** Shapes of binary32 values used by the invariants *)

(** The sign carried by a value that is not NaN. *)
Definition signed (s : bool) (a : spec_float) : Prop :=
  match a with
  | S754_zero s' | S754_infinity s' | S754_finite s' _ _ => s' = s
  | S754_nan => False
  end.

(** Zero or a finite [m * 2^e] of binary32 with [m * 2^e <= 2^k]. *)
Definition atMostPow2 (k : Z) (a : spec_float) : Prop :=
  match a with
  | S754_zero _ => True
  | S754_finite _ m e =>
      (-149 <= e /\ Zpos m * 2 ^ (e + 149) <= 2 ^ (k + 149))%Z
  | _ => False
  end.

(** What [dt >= 0] leaves: a zero, a positive number or +infinity. *)
Definition nonnegative (a : spec_float) : Prop :=
  match a with
  | S754_zero _ => True
  | S754_infinity s | S754_finite s _ _ => s = false
  | S754_nan => False
  end.

(** The abscissa of a spike that is kept in the list: zero, any negative
    finite number, or a positive one that is at most 2. *)
Definition spikeOK (a : spec_float) : Prop :=
  match a with
  | S754_zero _ => True
  | S754_finite true _ _ => True
  | S754_finite false m e =>
      (-149 <= e /\ Zpos m * 2 ^ (e + 149) <= 2 ^ 150)%Z
  | _ => False
  end.

(** The abscissa of a spike just advanced: as above, or -infinity. *)
Definition movedOK (a : spec_float) : Prop :=
  match a with
  | S754_infinity true => True
  | _ => spikeOK a
  end.

(** The mantissa of a rounded result fits in 24 bits. *)
Definition fits24 (a : spec_float) : Prop :=
  match a with
  | S754_finite _ m _ => (Zpos m < 2 ^ 24)%Z
  | _ => True
  end.

(** What [gravity * dt] is when [dt >= 0]: a zero, a negative number or
    -infinity. *)
Definition nonpositive (a : spec_float) : Prop :=
  match a with
  | S754_zero _ => True
  | S754_infinity s | S754_finite s _ _ => s = true
  | S754_nan => False
  end.

(** The velocity of the player: zero, negative (possibly -infinity), or a
    positive binary32 number of at most 2^-5 (the jump velocity is 0.02). *)
Definition velocityOK (v : spec_float) : Prop :=
  match v with
  | S754_zero _ => True
  | S754_infinity true => True
  | S754_finite true _ _ => True
  | S754_finite false m e =>
      (-149 <= e /\ Zpos m < 2 ^ 24 /\ Zpos m * 2 ^ (e + 149) <= 2 ^ 144)%Z
  | _ => False
  end.

(** The ordinate of the player: zero, negative, or a positive binary32
    number of at most 2^20. *)
Definition positionOK (p : spec_float) : Prop :=
  match p with
  | S754_zero _ => True
  | S754_finite true _ _ => True
  | S754_finite false m e =>
      (-149 <= e /\ Zpos m < 2 ^ 24 /\ Zpos m * 2 ^ (e + 149) <= 2 ^ 169)%Z
  | _ => False
  end.

(** The ordinate just integrated, before the ground clamp. *)
Definition fallenOK (p : spec_float) : Prop :=
  match p with
  | S754_infinity true => True
  | _ => positionOK p
  end.

Definition playerOK (g : Globals) : Prop :=
  positionOK (playerY g) /\ velocityOK (playerVelocity g).

Definition spikesOK (g : Globals) : Prop :=
  Forall (fun s => spikeOK (x s)) (spikes g).

(** ** Start-up: [initContext], [compileShader], [createProgram], [initGL]
       and [main]

    These functions talk to the browser and use what it answers.  A request
    is a call that leaves the program; the browser is any function from the
    requests made so far (the last one being the one to answer) to the
    answer: the value returned, or the content of the out-parameter after the
    call.  Nothing is assumed of it. *)

Module Startup.

Inductive Request :=
| emscripten_webgl_init_context_attributes
| emscripten_webgl_create_context (target : string) (majorVersion : Z)
| emscripten_webgl_make_context_current (ctx : Z)
| emscripten_set_main_loop (fps simulate_infinite_loop : Z)
| glCreateShader (type : Z)
| glShaderSource (shader : Z) (source : string)
| glCompileShader (shader : Z)
| glGetShaderiv (shader pname : Z)
| glGetShaderInfoLog (shader bufSize : Z)
| glDeleteShader (shader : Z)
| glCreateProgram
| glAttachShader (prog shader : Z)
| glLinkProgram (prog : Z)
| glGetProgramiv (prog pname : Z)
| glGetProgramInfoLog (prog bufSize : Z)
| glDeleteProgram (prog : Z)
| glUseProgram (prog : Z)
| glGetAttribLocation (prog : Z) (name : string)
| glGetUniformLocation (prog : Z) (name : string)
| glGenBuffers (n : Z)
| glBindBuffer (target buffer : Z)
| glBufferData (target size : Z) (data : list float) (usage : Z)
| glClearColor (red green blue alpha : float)
| glEnable (cap : Z)
| glBlendFunc (sfactor dfactor : Z)
| printf (text : string).

Record Browser := {
  answer : list Request -> Z;
  answerText : list Request -> string
}.

(** The statics written at start-up, and the requests made so far. *)
Record Boot := {
  context : Z;
  handles : GLHandles;
  trace : list Request
}.

Definition boot0 : Boot :=
  {| context := 0; handles := staticHandles; trace := [] |}.

Definition P (A : Type) : Type := Boot -> A * Boot.

Definition ret {A} (a : A) : P A := fun s => (a, s).

Definition bind {A B} (m : P A) (k : A -> P B) : P B :=
  fun s => let '(a, s1) := m s in k a s1.

Definition log (r : Request) (s : Boot) : Boot :=
  {| context := context s; handles := handles s;
     trace := trace s ++ [r] |}.

Definition set_context (c : Z) : P unit :=
  fun s => (tt, {| context := c; handles := handles s; trace := trace s |}).

Definition get_context : P Z := fun s => (context s, s).

Definition set_handles (f : GLHandles -> GLHandles) : P unit :=
  fun s =>
    (tt, {| context := context s; handles := f (handles s);
            trace := trace s |}).

Definition get_handles : P GLHandles := fun s => (handles s, s).

Definition set_program (v : Z) (h : GLHandles) : GLHandles :=
  {| program := v; aPositionLoc := aPositionLoc h;
     uTranslationLoc := uTranslationLoc h; uScaleLoc := uScaleLoc h;
     uColorLoc := uColorLoc h; playerVBO := playerVBO h;
     spikeVBO := spikeVBO h |}.

Definition set_aPositionLoc (v : Z) (h : GLHandles) : GLHandles :=
  {| program := program h; aPositionLoc := v;
     uTranslationLoc := uTranslationLoc h; uScaleLoc := uScaleLoc h;
     uColorLoc := uColorLoc h; playerVBO := playerVBO h;
     spikeVBO := spikeVBO h |}.

Definition set_uTranslationLoc (v : Z) (h : GLHandles) : GLHandles :=
  {| program := program h; aPositionLoc := aPositionLoc h;
     uTranslationLoc := v; uScaleLoc := uScaleLoc h;
     uColorLoc := uColorLoc h; playerVBO := playerVBO h;
     spikeVBO := spikeVBO h |}.

Definition set_uScaleLoc (v : Z) (h : GLHandles) : GLHandles :=
  {| program := program h; aPositionLoc := aPositionLoc h;
     uTranslationLoc := uTranslationLoc h; uScaleLoc := v;
     uColorLoc := uColorLoc h; playerVBO := playerVBO h;
     spikeVBO := spikeVBO h |}.

Definition set_uColorLoc (v : Z) (h : GLHandles) : GLHandles :=
  {| program := program h; aPositionLoc := aPositionLoc h;
     uTranslationLoc := uTranslationLoc h; uScaleLoc := uScaleLoc h;
     uColorLoc := v; playerVBO := playerVBO h;
     spikeVBO := spikeVBO h |}.

Definition set_playerVBO (v : Z) (h : GLHandles) : GLHandles :=
  {| program := program h; aPositionLoc := aPositionLoc h;
     uTranslationLoc := uTranslationLoc h; uScaleLoc := uScaleLoc h;
     uColorLoc := uColorLoc h; playerVBO := v;
     spikeVBO := spikeVBO h |}.

Definition set_spikeVBO (v : Z) (h : GLHandles) : GLHandles :=
  {| program := program h; aPositionLoc := aPositionLoc h;
     uTranslationLoc := uTranslationLoc h; uScaleLoc := uScaleLoc h;
     uColorLoc := uColorLoc h; playerVBO := playerVBO h;
     spikeVBO := v |}.

(** Constants of [GLES2/gl2.h]. *)
Definition GL_FALSE : Z := 0.
Definition GL_VERTEX_SHADER : Z := 35633.
Definition GL_FRAGMENT_SHADER : Z := 35632.
Definition GL_COMPILE_STATUS : Z := 35713.
Definition GL_LINK_STATUS : Z := 35714.
Definition GL_STATIC_DRAW : Z := 35044.
Definition GL_BLEND : Z := 3042.
Definition GL_SRC_ALPHA : Z := 770.
Definition GL_ONE_MINUS_SRC_ALPHA : Z := 771.

(** The two raw string literals of the source, line by line. *)
Definition vertexShaderSource : string :=
  String.concat newline
    [ "";
      "attribute vec2 aPosition;";
      "uniform vec2 uTranslation;";
      "uniform vec2 uScale;";
      "void main() {";
      "    // Apply translation and scale";
      "    vec2 pos = aPosition * uScale + uTranslation;";
      "    // Convert to clip space";
      "    gl_Position = vec4(pos, 0.0, 1.0);";
      "}";
      "" ]%string.

Definition fragmentShaderSource : string :=
  String.concat newline
    [ "";
      "precision mediump float;";
      "uniform vec4 uColor;";
      "void main() {";
      "    gl_FragColor = uColor;";
      "}";
      "" ]%string.

(** The vertex tables of [initGL]. *)
Definition half : float := Eval vm_compute in F32.lit 1 2.
Definition p05 : float := Eval vm_compute in F32.lit 5 100.
Definition m05 : float := Eval vm_compute in F32.opp (F32.lit 5 100).
Definition p1 : float := Eval vm_compute in F32.lit 1 10.

Definition playerVertices : list float :=
  [ m05; m05;
    p05; m05;
    m05; p05;
    p05; m05;
    p05; p05;
    m05; p05 ].

Definition spikeVertices : list float :=
  [ m05; zero;
    p05; zero;
    zero; p1 ].

(** [sizeof] of an array of [float]. *)
Definition sizeof (a : list float) : Z := 4 * Z.of_nat (List.length a).

(** The requests made between two moments of the start-up. *)
Definition since (s s' : Boot) : list Request :=
  skipn (List.length (trace s)) (trace s').

(** The state [s] after the further requests [l]. *)
Definition extend (s : Boot) (l : list Request) : Boot :=
  {| context := context s; handles := handles s; trace := trace s ++ l |}.

Definition isCreateContext (r : Request) : bool :=
  match r with emscripten_webgl_create_context _ _ => true | _ => false end.

Definition isMakeCurrent (r : Request) : bool :=
  match r with emscripten_webgl_make_context_current _ => true | _ => false end.

Definition isSetMainLoop (r : Request) : bool :=
  match r with emscripten_set_main_loop _ _ => true | _ => false end.

Definition isCreateShader (r : Request) : bool :=
  match r with glCreateShader _ => true | _ => false end.

Definition isDeleteShader (r : Request) : bool :=
  match r with glDeleteShader _ => true | _ => false end.

Definition isAttachShader (r : Request) : bool :=
  match r with glAttachShader _ _ => true | _ => false end.

Definition isCreateProgram (r : Request) : bool :=
  match r with glCreateProgram => true | _ => false end.

Definition isDeleteProgram (r : Request) : bool :=
  match r with glDeleteProgram _ => true | _ => false end.

Definition isGenBuffers (r : Request) : bool :=
  match r with glGenBuffers _ => true | _ => false end.

Definition isBufferData (r : Request) : bool :=
  match r with glBufferData _ _ _ _ => true | _ => false end.

Definition isPrint (r : Request) : bool :=
  match r with printf _ => true | _ => false end.

Definition count (p : Request -> bool) (l : list Request) : nat :=
  List.length (filter p l).

Section WithBrowser.
Variable browser : Browser.

Declare Scope boot_scope.
Delimit Scope boot_scope with boot.
Notation "v <- m ;; k" := (bind m (fun v => k))
  (at level 61, m at next level, right associativity) : boot_scope.
Notation "m ;; k" := (bind m (fun _ => k))
  (at level 61, right associativity) : boot_scope.
Local Open Scope boot_scope.

(** A call whose result (or out-parameter) the program reads. *)
Definition ask (r : Request) : P Z :=
  fun s => (answer browser (trace s ++ [r]), log r s).

Definition askText (r : Request) : P string :=
  fun s => (answerText browser (trace s ++ [r]), log r s).

(** A call whose result, if any, the program ignores. *)
Definition tell (r : Request) : P unit := fun s => (tt, log r s).

Definition initContext : P unit :=
  tell emscripten_webgl_init_context_attributes ;;
  c2 <- ask (emscripten_webgl_create_context "#canvas" 2) ;;
  set_context c2 ;;
  (if (c2 <=? 0)%Z then
     tell (printf ("WebGL 2.0 not supported. Trying WebGL 1.0..." ++ newline)) ;;
     c1 <- ask (emscripten_webgl_create_context "#canvas" 1) ;;
     set_context c1
   else ret tt) ;;
  c <- get_context ;;
  if (c <=? 0)%Z then
    tell (printf ("Failed to create WebGL context!" ++ newline))
  else
    tell (printf ("WebGL context created successfully." ++ newline)) ;;
    tell (emscripten_webgl_make_context_current c).

Definition compileShader (type : Z) (source : string) : P Z :=
  shader <- ask (glCreateShader type) ;;
  tell (glShaderSource shader source) ;;
  tell (glCompileShader shader) ;;
  status <- ask (glGetShaderiv shader GL_COMPILE_STATUS) ;;
  if (status =? GL_FALSE)%Z then
    buffer <- askText (glGetShaderInfoLog shader 512) ;;
    tell (printf ("Shader compile error: " ++ buffer ++ newline)) ;;
    tell (glDeleteShader shader) ;;
    ret 0%Z
  else ret shader.

Definition createProgram (vsSource fsSource : string) : P Z :=
  vs <- compileShader GL_VERTEX_SHADER vsSource ;;
  fs <- compileShader GL_FRAGMENT_SHADER fsSource ;;
  if ((vs =? 0)%Z || (fs =? 0)%Z)%bool then ret 0%Z
  else
    prog <- ask glCreateProgram ;;
    tell (glAttachShader prog vs) ;;
    tell (glAttachShader prog fs) ;;
    tell (glLinkProgram prog) ;;
    status <- ask (glGetProgramiv prog GL_LINK_STATUS) ;;
    if (status =? GL_FALSE)%Z then
      buffer <- askText (glGetProgramInfoLog prog 512) ;;
      tell (printf ("Program link error: " ++ buffer ++ newline)) ;;
      tell (glDeleteProgram prog) ;;
      ret 0%Z
    else
      tell (glDeleteShader vs) ;;
      tell (glDeleteShader fs) ;;
      ret prog.

Definition initGL : P unit :=
  prog <- createProgram vertexShaderSource fragmentShaderSource ;;
  set_handles (set_program prog) ;;
  tell (glUseProgram prog) ;;
  a <- ask (glGetAttribLocation prog "aPosition") ;;
  set_handles (set_aPositionLoc a) ;;
  t <- ask (glGetUniformLocation prog "uTranslation") ;;
  set_handles (set_uTranslationLoc t) ;;
  sc <- ask (glGetUniformLocation prog "uScale") ;;
  set_handles (set_uScaleLoc sc) ;;
  col <- ask (glGetUniformLocation prog "uColor") ;;
  set_handles (set_uColorLoc col) ;;
  pv <- ask (glGenBuffers 1) ;;
  set_handles (set_playerVBO pv) ;;
  tell (glBindBuffer GL_ARRAY_BUFFER pv) ;;
  tell (glBufferData GL_ARRAY_BUFFER (sizeof playerVertices) playerVertices
          GL_STATIC_DRAW) ;;
  sv <- ask (glGenBuffers 1) ;;
  set_handles (set_spikeVBO sv) ;;
  tell (glBindBuffer GL_ARRAY_BUFFER sv) ;;
  tell (glBufferData GL_ARRAY_BUFFER (sizeof spikeVertices) spikeVertices
          GL_STATIC_DRAW) ;;
  tell (glClearColor half half half one) ;;
  tell (glEnable GL_BLEND) ;;
  tell (glBlendFunc GL_SRC_ALPHA GL_ONE_MINUS_SRC_ALPHA).

(** [main], up to the point where it hands the loop to the browser. *)
Definition main : P unit :=
  initContext ;;
  initGL ;;
  tell (emscripten_set_main_loop 0 1).

End WithBrowser.

End Startup.

(** ** The whole program: start-up, then the frames the browser asks for *)



(** Counting the draw calls and reading the clock of a run of the host. *)
Definition isDraw (e : Effect) : bool :=
  match e with glDrawArrays _ _ _ => true | _ => false end.

Definition isPrintf (e : Effect) : bool :=
  match e with printf _ => true | _ => false end.

(** The calls [render] makes for one spike, and before and after the loop. *)
Definition drawSpike (h : GLHandles) (spike : Spike) : list Effect :=
  [ glUniform2f (uTranslationLoc h) (x spike) (y spike);
    glDrawArrays GL_TRIANGLES 0 3 ].

Definition drawPlayer (h : GLHandles) (py : float) : list Effect :=
  [ glClear GL_COLOR_BUFFER_BIT;
    glUseProgram (program h);
    glBindBuffer GL_ARRAY_BUFFER (playerVBO h);
    glEnableVertexAttribArray (aPositionLoc h);
    glVertexAttribPointer (aPositionLoc h) 2 GL_FLOAT false 0 0;
    glUniform2f (uTranslationLoc h) zero py;
    glUniform2f (uScaleLoc h) one one;
    glUniform4f (uColorLoc h) zero zero zero one;
    glDrawArrays GL_TRIANGLES 0 6 ].

Definition bindSpikes (h : GLHandles) : list Effect :=
  [ glBindBuffer GL_ARRAY_BUFFER (spikeVBO h);
    glVertexAttribPointer (aPositionLoc h) 2 GL_FLOAT false 0 0;
    glUniform2f (uScaleLoc h) one one;
    glUniform4f (uColorLoc h) one one one one ].

(** ** Observations on the frame functions *)

(** What the collision branch of [update] prints. *)
Definition collisionMessage : list Effect :=
  [printf ("Collision! Resetting..." ++ newline)].

(** Every spike in the list has the ordinate it was spawned with. *)
Definition spikesOnGround (g : Globals) : Prop :=
  Forall (fun s => y s = groundLevel) (spikes g).

(** A clock reading the program can subtract: a binary64 number in canonical
    form (as every finite result of a binary64 operation is), zero
    included; not an infinity, not NaN. *)
Definition readable (t : double) : bool :=
  match t with
  | S754_zero _ => true
  | S754_finite _ m e => bounded F64.prec F64.emax m e
  | _ => false
  end.

(** The clock readings passed to [update] never go back, starting from the
    reading [previous]. *)
Fixpoint ascending (previous : double) (cs : list HostCall) : bool :=
  match cs with
  | [] => true
  | HostUpdate t :: cs' => readable t && SFleb previous t && ascending t cs'
  | HostKey _ :: cs' => ascending previous cs'
  end.


(** The spawn accumulator between two frames: a non-negative number below
    the spawn interval. *)
Definition timerOK (g : Globals) : Prop :=
  nonnegative (spikeSpawnTimer g) /\
  F32.lt (spikeSpawnTimer g) spikeSpawnInterval = true.

(** ** Sanity of the constants *)

(** The literals have the bit patterns a C++ compiler gives them
    ([0.02f] is 0x3CA3D70A, [0.06f] 0x3D75C28F, [0.4f] 0x3ECCCCCD,
    [1.2f] 0x3F99999A, [0.05f] 0x3D4CCCCD, [0.1f] 0x3DCCCCCD), written as
    mantissa and exponent, and all are canonical binary32 numbers. *)
Lemma literals :
  scrollSpeed = S754_finite false 10737418 (-29) /\
  gravity = S754_finite true 16106127 (-28) /\
  groundLevel = S754_finite true 13421773 (-25) /\
  spawnX = S754_finite false 10066330 (-23) /\
  despawnX = S754_finite true 10066330 (-23) /\
  spikeWidth = S754_finite false 13421773 (-28) /\
  spikeHeight = S754_finite false 13421773 (-27) /\
  forallb (valid_binary F32.prec F32.emax)
    [scrollSpeed; spikeSpawnInterval; gravity; jumpVelocity; groundLevel;
     spawnX; despawnX; sixty; spikeWidth; spikeHeight; playerHalf; one;
     onePointFive; three; five] = true.
Proof. repeat split. Qed.

(** ** Stepping lemmas *)

Lemma exec_bind A B (m : M A) (k : A -> M B) g :
  exec (bind m k) g = exec (k (fst (fst (m g)))) (exec m g).
Proof.
  unfold exec, bind.
  destruct (m g) as [[a g1] o1]; simpl.
  destruct (k a g1) as [[b g2] o2]; reflexivity.
Qed.

Lemma output_bind A B (m : M A) (k : A -> M B) g :
  output (bind m k) g
  = (output m g ++ output (k (fst (fst (m g)))) (exec m g))%list.
Proof.
  unfold output, exec, bind.
  destruct (m g) as [[a g1] o1]; simpl.
  destruct (k a g1) as [[b g2] o2]; reflexivity.
Qed.

Lemma exec_modify f g : exec (modify f) g = f g.
Proof. reflexivity. Qed.

Lemma exec_emit e g : exec (emit e) g = g.
Proof. reflexivity. Qed.

Lemma exec_gets A (f : Globals -> A) g : exec (gets f) g = g.
Proof. reflexivity. Qed.

Lemma collisionLoop_no_hit py l g :
  playerY g = py ->
  existsb (overlaps py) l = false ->
  collisionLoop l g = (tt, g, []).
Proof.
  intros <-. induction l as [|s l IH]; simpl; intro H.
  - reflexivity.
  - apply orb_false_elim in H. destruct H as [Hs Hl].
    unfold bind, gets. unfold overlaps in Hs. rewrite Hs.
    rewrite (IH Hl). reflexivity.
Qed.

Lemma collisionLoop_first_hit pre s post g :
  existsb (overlaps (playerY g)) pre = false ->
  overlaps (playerY g) s = true ->
  collisionLoop (pre ++ s :: post) g = resetOnCollision g.
Proof.
  induction pre as [|p pre IH]; simpl; intros Hpre Hs.
  - unfold bind at 1. unfold gets at 1. unfold overlaps in Hs.
    rewrite Hs. destruct (resetOnCollision g) as [[u g'] o]. reflexivity.
  - apply orb_false_elim in Hpre. destruct Hpre as [Hp Hpre].
    unfold bind at 1. unfold gets at 1. unfold overlaps in Hp.
    rewrite Hp, (IH Hpre Hs).
    destruct (resetOnCollision g) as [[u g'] o]. reflexivity.
Qed.

Lemma first_hit py l :
  existsb (overlaps py) l = true ->
  exists pre s post,
    l = (pre ++ s :: post)%list /\
    existsb (overlaps py) pre = false /\ overlaps py s = true.
Proof.
  induction l as [|a l IH]; simpl; intro H.
  - discriminate.
  - destruct (overlaps py a) eqn:Ha.
    + exists [], a, l. auto.
    + destruct (IH H) as (pre & s & post & -> & Hpre & Hs).
      exists (a :: pre), s, post. simpl. rewrite Ha. auto.
Qed.

Lemma exec_resetOnCollision g : exec resetOnCollision g = resetState g.
Proof. reflexivity. Qed.

Lemma exec_checkCollisions g :
  exec checkCollisions g =
  if existsb (overlaps (playerY g)) (spikes g) then resetState g else g.
Proof.
  unfold checkCollisions. rewrite exec_bind. simpl fst. rewrite exec_gets.
  destruct (existsb (overlaps (playerY g)) (spikes g)) eqn:H.
  - destruct (first_hit _ _ H) as (pre & s & post & -> & Hpre & Hs).
    unfold exec at 1. rewrite collisionLoop_first_hit by assumption.
    reflexivity.
  - unfold exec at 1.
    rewrite (@collisionLoop_no_hit (playerY g)) by auto. reflexivity.
Qed.

Lemma exec_step dt g :
  exec (step dt) g = exec checkCollisions (beforeScan dt g).
Proof.
  unfold step. repeat (rewrite exec_bind; simpl fst; rewrite exec_modify).
  reflexivity.
Qed.

Lemma exec_update t g :
  exec (update t) g = exec (step (deltaTimeAt t g)) (set_lastFrameTime t g).
Proof.
  unfold update. rewrite exec_bind. simpl fst. rewrite exec_gets.
  rewrite exec_bind. reflexivity.
Qed.

Lemma updatePhysics_eq dt g :
  let v := F32.add (playerVelocity g) (F32.mul gravity dt) in
  let p := F32.add (playerY g) v in
  updatePhysics dt g =
    if F32.lt p groundLevel then
      {| gl := gl g; playerY := groundLevel; playerVelocity := zero;
         isOnGround := true; spikeSpawnTimer := spikeSpawnTimer g;
         lastFrameTime := lastFrameTime g; spikes := spikes g |}
    else
      {| gl := gl g; playerY := p; playerVelocity := v;
         isOnGround := isOnGround g; spikeSpawnTimer := spikeSpawnTimer g;
         lastFrameTime := lastFrameTime g; spikes := spikes g |}.
Proof. reflexivity. Qed.

Lemma step_clock dt t g :
  exec (step dt) (set_lastFrameTime t g)
  = set_lastFrameTime t (exec (step dt) g).
Proof.
  rewrite !exec_step, !exec_checkCollisions.
  assert (E1 : updatePhysics dt (set_lastFrameTime t g)
               = set_lastFrameTime t (updatePhysics dt g)).
  { rewrite !updatePhysics_eq. cbv zeta. simpl.
    destruct F32.lt; reflexivity. }
  assert (E2 : forall g0, spawnSpikes dt (set_lastFrameTime t g0)
                          = set_lastFrameTime t (spawnSpikes dt g0)).
  { intro g0. unfold spawnSpikes. cbv zeta. simpl.
    destruct F32.ge; reflexivity. }
  assert (E : beforeScan dt (set_lastFrameTime t g)
              = set_lastFrameTime t (beforeScan dt g)).
  { unfold beforeScan. rewrite E1, E2. reflexivity. }
  rewrite E. simpl. destruct existsb; reflexivity.
Qed.

Lemma onKeyDown_clock k t g :
  exec (onKeyDown k) (set_lastFrameTime t g)
  = set_lastFrameTime t (exec (onKeyDown k) g).
Proof.
  unfold onKeyDown.
  destruct (k =? 32)%Z; [|reflexivity].
  rewrite !exec_bind. simpl fst. rewrite !exec_gets. simpl.
  destruct (isOnGround g); reflexivity.
Qed.

(** A run of [update]s and key presses goes through the states of the run of
    the frames it measures; only the stored clock differs. *)
Lemma hostRun_measured cs :
  forall g g',
    forgetClock g = forgetClock g' ->
    forgetClock (hostRun cs g) = forgetClock (run (measured cs g) g').
Proof.
  unfold forgetClock.
  induction cs as [|[t|k] cs IH]; intros g g' E; simpl.
  - exact E.
  - apply IH. rewrite exec_update, step_clock.
    rewrite <- !step_clock. simpl set_lastFrameTime at 2.
    change (set_lastFrameTime (S754_zero false) (set_lastFrameTime t g))
      with (set_lastFrameTime (S754_zero false) g).
    rewrite E. reflexivity.
  - apply IH. rewrite <- !onKeyDown_clock, E. reflexivity.
Qed.

(** ** Which fields each block of [update] touches *)

Lemma updatePhysics_frame dt g :
  spikes (updatePhysics dt g) = spikes g /\
  spikeSpawnTimer (updatePhysics dt g) = spikeSpawnTimer g /\
  lastFrameTime (updatePhysics dt g) = lastFrameTime g /\
  gl (updatePhysics dt g) = gl g.
Proof.
  unfold updatePhysics.
  destruct F32.lt; simpl; auto.
Qed.

Lemma spawnSpikes_frame dt g :
  playerY (spawnSpikes dt g) = playerY g /\
  playerVelocity (spawnSpikes dt g) = playerVelocity g /\
  isOnGround (spawnSpikes dt g) = isOnGround g /\
  lastFrameTime (spawnSpikes dt g) = lastFrameTime g /\
  gl (spawnSpikes dt g) = gl g.
Proof.
  unfold spawnSpikes.
  destruct F32.ge; simpl; auto.
Qed.

Lemma playerY_beforeScan dt g :
  playerY (beforeScan dt g) = playerY (updatePhysics dt g).
Proof.
  unfold beforeScan. simpl. apply spawnSpikes_frame.
Qed.

Lemma spikeSpawnTimer_beforeScan dt g :
  spikeSpawnTimer (beforeScan dt g)
  = spikeSpawnTimer (spawnSpikes dt (updatePhysics dt g)).
Proof. reflexivity. Qed.

Lemma updatePhysics_not_below dt g : belowGround (updatePhysics dt g) = false.
Proof.
  unfold belowGround, updatePhysics. cbv zeta. simpl playerY at 2.
  match goal with |- context [if ?c then _ else _] => destruct c eqn:E end.
  - reflexivity.
  - exact E.
Qed.

Lemma step_not_below dt g : belowGround (exec (step dt) g) = false.
Proof.
  rewrite exec_step, exec_checkCollisions.
  destruct existsb.
  - reflexivity.
  - unfold belowGround. rewrite playerY_beforeScan.
    apply updatePhysics_not_below.
Qed.

Lemma playerY_onKeyDown k g : playerY (exec (onKeyDown k) g) = playerY g.
Proof.
  unfold onKeyDown.
  destruct (k =? 32)%Z; [|reflexivity].
  rewrite exec_bind. simpl fst. rewrite exec_gets.
  destruct (isOnGround g); reflexivity.
Qed.

Lemma call_not_below c g :
  belowGround g = false -> belowGround (call c g) = false.
Proof.
  destruct c as [dt|k]; simpl; intro H.
  - apply step_not_below.
  - unfold belowGround. rewrite playerY_onKeyDown. exact H.
Qed.

(** ** Comparisons on numbers: [a >= b] is the negation of [a < b] unless an
       operand is NaN *)

Lemma SFcompare_antisym a b :
  SFcompare b a = option_map CompOpp (SFcompare a b).
Proof.
  destruct a as [sa|sa| |sa ma ea], b as [sb|sb| |sb mb eb]; simpl;
    try reflexivity;
    try (destruct sa; reflexivity); try (destruct sb; reflexivity);
    try (destruct sa, sb; reflexivity).
  destruct sa, sb; try reflexivity;
    rewrite (Z.compare_antisym ea eb);
    destruct (ea ?= eb)%Z; simpl; try reflexivity;
    rewrite (Pos.compare_cont_antisym ma mb Eq); simpl;
    try rewrite CompOpp_involutive; reflexivity.
Qed.

Lemma ge_is_not_lt a b :
  F32.is_nan a = false -> F32.is_nan b = false ->
  F32.ge a b = negb (F32.lt a b).
Proof.
  intros Ha Hb. unfold F32.ge, F32.lt, SFleb, SFltb.
  rewrite (SFcompare_antisym a b).
  destruct a as [sa|sa| |sa ma ea]; try discriminate;
    destruct b as [sb|sb| |sb mb eb]; try discriminate;
    destruct (SFcompare _ _) as [[]|] eqn:E; try reflexivity;
    simpl in E; discriminate.
Qed.

(** ** Rounding to binary32: sign and magnitude of the result *)

Section Rounding.
Local Open Scope Z_scope.

Lemma digits2_pos_bound (m : positive) :
  2 ^ (Zpos (digits2_pos m) - 1) <= Zpos m < 2 ^ Zpos (digits2_pos m).
Proof.
  induction m as [m IH|m IH|]; simpl digits2_pos.
  - rewrite Pos2Z.inj_succ, Z.pow_succ_r by lia.
    replace (Z.succ (Zpos (digits2_pos m)) - 1) with (Z.succ (Zpos (digits2_pos m) - 1)) by lia.
    rewrite Z.pow_succ_r by lia. lia.
  - rewrite Pos2Z.inj_succ, Z.pow_succ_r by lia.
    replace (Z.succ (Zpos (digits2_pos m)) - 1) with (Z.succ (Zpos (digits2_pos m) - 1)) by lia.
    rewrite Z.pow_succ_r by lia. lia.
  - simpl. lia.
Qed.

Lemma Zdigits2_bound (m : Z) : 0 <= m -> m < 2 ^ Zdigits2 m.
Proof.
  destruct m as [|p|p]; intro H.
  - simpl. lia.
  - apply digits2_pos_bound.
  - lia.
Qed.

Lemma shr_1_bound mrs :
  0 <= shr_m mrs ->
  0 <= shr_m (shr_1 mrs) /\ 2 * shr_m (shr_1 mrs) <= shr_m mrs.
Proof.
  destruct mrs as [m r s]. simpl shr_m at 1. intro H.
  destruct m as [|[p|p|]|p]; simpl; lia.
Qed.

Lemma iter_shr_1_bound (n : positive) :
  forall mrs,
    0 <= shr_m mrs ->
    0 <= shr_m (iter_pos shr_1 n mrs) /\
    2 ^ Zpos n * shr_m (iter_pos shr_1 n mrs) <= shr_m mrs.
Proof.
  induction n as [n IH|n IH|]; intros mrs H; simpl iter_pos.
  - destruct (shr_1_bound mrs H) as [H0 H1].
    destruct (IH _ H0) as [H2 H3].
    destruct (IH _ H2) as [H4 H5].
    split; [exact H4|].
    replace (Zpos n~1) with (1 + Zpos n + Zpos n) by lia.
    rewrite !Z.pow_add_r by lia. rewrite Z.pow_1_r.
    pose proof (Z.pow_pos_nonneg 2 (Zpos n)). nia.
  - destruct (IH _ H) as [H2 H3].
    destruct (IH _ H2) as [H4 H5].
    split; [exact H4|].
    replace (Zpos n~0) with (Zpos n + Zpos n) by lia.
    rewrite !Z.pow_add_r by lia.
    pose proof (Z.pow_pos_nonneg 2 (Zpos n)). nia.
  - apply shr_1_bound, H.
Qed.

Lemma round_nearest_even_bound m l :
  m <= round_nearest_even m l <= m + 1.
Proof.
  unfold round_nearest_even.
  destruct l as [|[]]; try destruct (Z.even m); lia.
Qed.

Lemma shr_m_record_of_loc m l : shr_m (shr_record_of_loc m l) = m.
Proof. destruct l as [|[]]; reflexivity. Qed.

Lemma fexp32 e : fexp 24 128 e = Z.max (e - 24) (-149).
Proof. reflexivity. Qed.

Lemma shr_exact_bound (r e k : Z) (n : Z) :
  0 <= r -> -149 <= e ->
  r * 2 ^ (e + 149) <= 2 ^ (k + 149) ->
  let '(mrs, e') := shr (shr_record_of_loc r loc_Exact) e n in
  0 <= shr_m mrs /\ -149 <= e' /\
  shr_m mrs * 2 ^ (e' + 149) <= 2 ^ (k + 149).
Proof.
  intros Hr He Hb. unfold shr.
  destruct n as [|p|p]; simpl shr_m; auto.
  destruct (iter_shr_1_bound p (shr_record_of_loc r loc_Exact)) as [H0 H1];
    [simpl; exact Hr|].
  simpl shr_m in H1.
  split; [exact H0|]. split; [lia|].
  replace (e + Zpos p + 149) with (Zpos p + (e + 149)) by lia.
  rewrite Z.pow_add_r by lia.
  pose proof (Z.pow_pos_nonneg 2 (e + 149)).
  pose proof (Z.pow_pos_nonneg 2 (Zpos p)).
  eapply Z.le_trans; [|exact Hb].
  rewrite Z.mul_assoc. apply Z.mul_le_mono_nonneg_r; [lia|]. lia.
Qed.

Lemma shr_fexp_round_bound (m e k : Z) (l : location) :
  0 <= m -> -149 <= k -> Zdigits2 m + e <= k ->
  let '(mrs, e') := shr_fexp 24 128 m e l in
  let r := round_nearest_even (shr_m mrs) (loc_of_shr_record mrs) in
  0 <= r /\ -149 <= e' /\ r * 2 ^ (e' + 149) <= 2 ^ (k + 149).
Proof.
  intros Hm Hk Hd. unfold shr_fexp, shr. rewrite fexp32.
  pose proof (Zdigits2_bound m Hm) as Hlt.
  assert (HD : 0 <= Zdigits2 m) by (destruct m; simpl; lia).
  destruct (Z.max (Zdigits2 m + e - 24) (-149) - e) as [|p|p] eqn:En.
  - (* no shift *)
    cbv zeta. rewrite shr_m_record_of_loc.
    pose proof (round_nearest_even_bound m
                  (loc_of_shr_record (shr_record_of_loc m l))) as Hr.
    split; [lia|]. split; [lia|].
    apply Z.le_trans with (2 ^ Zdigits2 m * 2 ^ (e + 149)).
    + apply Z.mul_le_mono_nonneg_r; [apply Z.pow_nonneg; lia | lia].
    + rewrite <- Z.pow_add_r by lia. apply Z.pow_le_mono_r; lia.
  - (* shift right by p *)
    cbv zeta.
    destruct (iter_shr_1_bound p (shr_record_of_loc m l)) as [H0 H1];
      [rewrite shr_m_record_of_loc; exact Hm|].
    rewrite shr_m_record_of_loc in H1.
    set (mrs := iter_pos shr_1 p (shr_record_of_loc m l)) in *.
    pose proof (round_nearest_even_bound (shr_m mrs)
                  (loc_of_shr_record mrs)) as Hr.
    split; [lia|]. split; [lia|].
    pose proof (Z.pow_pos_nonneg 2 (Zpos p)).
    destruct (Z_le_gt_dec (Zpos p) (Zdigits2 m)) as [Hle|Hgt].
    + assert (shr_m mrs < 2 ^ (Zdigits2 m - Zpos p)).
      { apply Z.mul_lt_mono_pos_l with (2 ^ Zpos p); [lia|].
        rewrite <- Z.pow_add_r by lia.
        replace (Zpos p + (Zdigits2 m - Zpos p)) with (Zdigits2 m) by lia.
        lia. }
      apply Z.le_trans with (2 ^ (Zdigits2 m - Zpos p) * 2 ^ (e + Zpos p + 149)).
      * apply Z.mul_le_mono_nonneg_r; [apply Z.pow_nonneg; lia | lia].
      * rewrite <- Z.pow_add_r by lia. apply Z.pow_le_mono_r; lia.
    + assert (shr_m mrs = 0).
      { assert (2 ^ Zdigits2 m < 2 ^ Zpos p)
          by (apply Z.pow_lt_mono_r; lia).
        nia. }
      apply Z.le_trans with (1 * 2 ^ (e + Zpos p + 149)).
      * apply Z.mul_le_mono_nonneg_r; [apply Z.pow_nonneg; lia | lia].
      * rewrite Z.mul_1_l. apply Z.pow_le_mono_r; lia.
  - (* negative count: no shift *)
    cbv zeta. rewrite shr_m_record_of_loc.
    pose proof (round_nearest_even_bound m
                  (loc_of_shr_record (shr_record_of_loc m l))) as Hr.
    split; [lia|]. split; [lia|].
    apply Z.le_trans with (2 ^ Zdigits2 m * 2 ^ (e + 149)).
    + apply Z.mul_le_mono_nonneg_r; [apply Z.pow_nonneg; lia | lia].
    + rewrite <- Z.pow_add_r by lia. apply Z.pow_le_mono_r; lia.
Qed.

Lemma binary_round_aux_shape s m e l k :
  0 <= m -> -149 <= k -> Zdigits2 m + e <= k ->
  let a := binary_round_aux 24 128 s m e l in
  signed s a /\ (k <= 104 -> atMostPow2 k a).
Proof.
  intros Hm Hk Hd. unfold binary_round_aux.
  pose proof (shr_fexp_round_bound m e k l Hm Hk Hd) as H1.
  destruct (shr_fexp 24 128 m e l) as [mrs1 e1]. cbv zeta in H1.
  destruct H1 as (Hr & He & Hb).
  set (r := round_nearest_even (shr_m mrs1) (loc_of_shr_record mrs1)) in *.
  unfold shr_fexp.
  pose proof (shr_exact_bound r e1 k
                (fexp 24 128 (Zdigits2 r + e1) - e1) Hr He Hb) as H2.
  destruct (shr (shr_record_of_loc r loc_Exact) e1
              (fexp 24 128 (Zdigits2 r + e1) - e1)) as [mrs2 e2].
  destruct H2 as (H0 & He2 & Hb2).
  cbv zeta.
  destruct (shr_m mrs2) as [|p|p].
  - simpl. auto.
  - assert (Hek : e2 <= k).
    { assert (2 ^ (e2 + 149) <= 2 ^ (k + 149)).
      { pose proof (Z.pow_pos_nonneg 2 (e2 + 149)). nia. }
      apply Z.pow_le_mono_r_iff in H; lia. }
    destruct (Z.leb_spec e2 (128 - 24)).
    + simpl. auto.
    + simpl. split; [reflexivity|]. intro. lia.
  - lia.
Qed.

Lemma digits2_pos_iter_xO m n :
  Zpos (digits2_pos (Pos.iter xO m n)) = Zpos (digits2_pos m) + Zpos n.
Proof.
  induction n as [|n IH] using Pos.peano_ind.
  - simpl. lia.
  - rewrite Pos.iter_succ. simpl digits2_pos. lia.
Qed.

Lemma Zpos_iter_xO m n : Zpos (Pos.iter xO m n) = Zpos m * 2 ^ Zpos n.
Proof.
  induction n as [|n IH] using Pos.peano_ind.
  - simpl. lia.
  - rewrite Pos.iter_succ, Pos2Z.inj_xO, IH, Pos2Z.inj_succ, Z.pow_succ_r by lia.
    lia.
Qed.

Lemma binary_round_shape s m e k :
  -149 <= k -> Zpos (digits2_pos m) + e <= k ->
  let a := binary_round 24 128 s m e in
  signed s a /\ (k <= 104 -> atMostPow2 k a).
Proof.
  intros Hk Hd. unfold binary_round, shl_align.
  destruct (fexp 24 128 (Zpos (digits2_pos m) + e) - e) as [|p|p] eqn:E.
  - apply binary_round_aux_shape; [lia | lia | exact Hd].
  - apply binary_round_aux_shape; [lia | lia | exact Hd].
  - apply binary_round_aux_shape; [lia | lia |].
    simpl Zdigits2. rewrite digits2_pos_iter_xO.
    set (f := fexp 24 128 (Zpos (digits2_pos m) + e)) in *. lia.
Qed.

Lemma nonneg_nonnegative dt : nonneg dt = true -> nonnegative dt.
Proof.
  destruct dt as [s|s| |s m e]; simpl; try discriminate; auto;
    destruct s; auto; discriminate.
Qed.

Lemma binary_round_aux_signed s m e :
  signed s (binary_round_aux 24 128 s (Zpos m) e loc_Exact).
Proof.
  apply (@binary_round_aux_shape s (Zpos m) e loc_Exact
           (Z.max (Zdigits2 (Zpos m) + e) (-149))); lia.
Qed.

Lemma binary_round_signed s m e : signed s (binary_round 24 128 s m e).
Proof.
  apply (@binary_round_shape s m e
           (Z.max (Zpos (digits2_pos m) + e) (-149))); lia.
Qed.

Lemma signed_false_nonnegative a : signed false a -> nonnegative a.
Proof. destruct a; simpl; auto. Qed.

Lemma mul_finite_nonnegative ma ea b :
  nonnegative b ->
  nonnegative (F32.mul (S754_finite false ma ea) b) /\
  nonnegative (F32.mul b (S754_finite false ma ea)).
Proof.
  destruct b as [sb|sb| |sb mb eb]; simpl; intros Hb; subst;
    try contradiction; auto;
    split; apply signed_false_nonnegative, binary_round_aux_signed.
Qed.

Lemma shl_align_fst m e e' :
  e' <= e -> Zpos (fst (shl_align m e e')) = Zpos m * 2 ^ (e - e').
Proof.
  intro H. unfold shl_align.
  destruct (e' - e) as [|p|p] eqn:E; simpl fst.
  - replace (e - e') with 0 by lia. simpl. lia.
  - lia.
  - rewrite Zpos_iter_xO. f_equal. f_equal. lia.
Qed.

Lemma digits2_pos_le d n : 0 <= n -> Zpos d < 2 ^ n -> Zpos (digits2_pos d) <= n.
Proof.
  intros Hn H. pose proof (digits2_pos_bound d) as [Hl _].
  assert (2 ^ (Zpos (digits2_pos d) - 1) < 2 ^ n) by lia.
  apply Z.pow_lt_mono_r_iff in H0; lia.
Qed.

Lemma signed_true_movedOK a : signed true a -> movedOK a.
Proof. destruct a as [s|s| |s m e]; simpl; intros; subst; auto. Qed.

Lemma sub_finite_movedOK sa ma ea mt et :
  spikeOK (S754_finite sa ma ea) ->
  movedOK (F32.sub (S754_finite sa ma ea) (S754_finite false mt et)).
Proof.
  intro Ha.
  change (F32.sub (S754_finite sa ma ea) (S754_finite false mt et))
    with (binary_normalize 24 128
            (cond_Zopp sa (Zpos (fst (shl_align ma ea (Z.min ea et))))
             - Zpos (fst (shl_align mt et (Z.min ea et))))
            (Z.min ea et) false).
  set (ez := Z.min ea et).
  pose proof (shl_align_fst ma ea ez ltac:(lia)) as Hx.
  pose proof (shl_align_fst mt et ez ltac:(lia)) as Hy.
  set (mx := fst (shl_align ma ea ez)) in *.
  set (my := fst (shl_align mt et ez)) in *.
  unfold binary_normalize.
  destruct (cond_Zopp sa (Zpos mx) - Zpos my) as [|d|d] eqn:D.
  - exact I.
  - unfold cond_Zopp in D. destruct sa; [lia|].
    destruct Ha as [He Hb].
    assert (Hea : ea <= 1).
    { assert (2 ^ (ea + 149) <= 2 ^ 150).
      { pose proof (Z.pow_pos_nonneg 2 (ea + 149)). nia. }
      apply Z.pow_le_mono_r_iff in H; lia. }
    assert (Hma : Zpos ma <= 2 ^ (1 - ea)).
    { apply Z.mul_le_mono_pos_r with (2 ^ (ea + 149)).
      - apply Z.pow_pos_nonneg; lia.
      - rewrite <- Z.pow_add_r by lia.
        replace (1 - ea + (ea + 149)) with 150 by lia. exact Hb. }
    assert (Hd : Zpos d < 2 ^ (1 - ez)).
    { apply Z.lt_le_trans with (Zpos mx); [lia|].
      rewrite Hx.
      replace (1 - ez) with ((1 - ea) + (ea - ez)) by lia.
      rewrite Z.pow_add_r by lia.
      apply Z.mul_le_mono_nonneg_r; [apply Z.pow_nonneg; lia | exact Hma]. }
    apply digits2_pos_le in Hd; [|lia].
    destruct (@binary_round_shape false d ez 1) as [Hs Hk]; [lia | lia |].
    specialize (Hk ltac:(lia)).
    destruct (binary_round 24 128 false d ez) as [s|s| |s m e];
      simpl in *; subst; auto.
  - apply signed_true_movedOK. apply binary_round_signed.
Qed.

Lemma sub_movedOK a t :
  spikeOK a -> nonnegative t -> movedOK (F32.sub a t).
Proof.
  intros Ha Ht.
  destruct t as [st|st| |st mt et]; simpl in Ht; try contradiction.
  - destruct a as [sa|sa| |sa ma ea]; simpl in Ha; try contradiction.
    + destruct sa, st; exact I.
    + exact Ha.
  - subst st.
    destruct a as [sa|sa| |sa ma ea]; simpl in Ha; try contradiction;
      exact I.
  - subst st.
    destruct a as [sa|sa| |sa ma ea]; simpl in Ha; try contradiction.
    + exact I.
    + apply sub_finite_movedOK, Ha.
Qed.

(** *** Exact shifts, and sums next to a power of two *)

Lemma shr_1_exact mrs :
  0 <= shr_m mrs ->
  shr_m (shr_1 mrs) = shr_m mrs / 2 /\
  shr_r (shr_1 mrs) = Z.odd (shr_m mrs).
Proof.
  destruct mrs as [m r s]. simpl shr_m at 1 3 4. intro H.
  destruct m as [|[p|p|]|p]; try lia; simpl shr_1; simpl shr_m; simpl shr_r.
  - auto.
  - split; [|reflexivity].
    rewrite Pos2Z.inj_xI. apply Z.div_unique with 1; lia.
  - split; [|reflexivity].
    rewrite Pos2Z.inj_xO. apply Z.div_unique with 0; lia.
  - auto.
Qed.

Lemma iter_shr_1_m (n : positive) :
  forall mrs,
    0 <= shr_m mrs ->
    shr_m (iter_pos shr_1 n mrs) = shr_m mrs / 2 ^ Zpos n.
Proof.
  induction n as [n IH|n IH|]; intros mrs H; simpl iter_pos.
  - destruct (shr_1_exact mrs H) as [E _].
    assert (H1 : 0 <= shr_m (shr_1 mrs)) by (rewrite E; apply Z.div_pos; lia).
    assert (H2 : 0 <= shr_m (iter_pos shr_1 n (shr_1 mrs))).
    { rewrite IH by exact H1. apply Z.div_pos; [lia|].
      apply Z.pow_pos_nonneg; lia. }
    rewrite IH by exact H2. rewrite IH by exact H1. rewrite E.
    rewrite !Z.div_div by (try apply Z.pow_pos_nonneg; lia).
    f_equal. replace (Zpos n~1) with (1 + Zpos n + Zpos n) by lia.
    rewrite !Z.pow_add_r by lia. rewrite Z.pow_1_r. lia.
  - assert (H2 : 0 <= shr_m (iter_pos shr_1 n mrs)).
    { rewrite IH by exact H. apply Z.div_pos; [lia|].
      apply Z.pow_pos_nonneg; lia. }
    rewrite IH by exact H2. rewrite IH by exact H.
    rewrite !Z.div_div by (try apply Z.pow_pos_nonneg; lia).
    f_equal. replace (Zpos n~0) with (Zpos n + Zpos n) by lia.
    rewrite !Z.pow_add_r by lia. lia.
  - rewrite Z.pow_1_r. apply shr_1_exact, H.
Qed.

Lemma iter_shr_1_r (n : positive) :
  forall mrs,
    0 <= shr_m mrs ->
    shr_r (iter_pos shr_1 n mrs) = Z.odd (shr_m mrs / 2 ^ (Zpos n - 1)).
Proof.
  induction n as [n IH|n IH|]; intros mrs H; simpl iter_pos.
  - destruct (shr_1_exact mrs H) as [E _].
    assert (H1 : 0 <= shr_m (shr_1 mrs)) by (rewrite E; apply Z.div_pos; lia).
    assert (H2 : 0 <= shr_m (iter_pos shr_1 n (shr_1 mrs))).
    { rewrite iter_shr_1_m by exact H1. apply Z.div_pos; [lia|].
      apply Z.pow_pos_nonneg; lia. }
    rewrite IH by exact H2. rewrite iter_shr_1_m by exact H1. rewrite E.
    rewrite !Z.div_div by (try apply Z.pow_pos_nonneg; lia).
    f_equal. f_equal.
    replace (Zpos n~1 - 1) with (1 + Zpos n + (Zpos n - 1)) by lia.
    rewrite !Z.pow_add_r by lia. rewrite Z.pow_1_r. lia.
  - assert (H2 : 0 <= shr_m (iter_pos shr_1 n mrs)).
    { rewrite iter_shr_1_m by exact H. apply Z.div_pos; [lia|].
      apply Z.pow_pos_nonneg; lia. }
    rewrite IH by exact H2. rewrite iter_shr_1_m by exact H.
    rewrite !Z.div_div by (try apply Z.pow_pos_nonneg; lia).
    f_equal. f_equal.
    replace (Zpos n~0 - 1) with (Zpos n + (Zpos n - 1)) by lia.
    rewrite !Z.pow_add_r by lia. lia.
  - simpl. rewrite Z.div_1_r. apply shr_1_exact, H.
Qed.

Lemma digits2_pos_unique d k :
  2 ^ (k - 1) <= Zpos d < 2 ^ k -> Zpos (digits2_pos d) = k.
Proof.
  intros [Hl Hu]. pose proof (digits2_pos_bound d) as [Bl Bu].
  assert (0 < k).
  { destruct k as [|k|k]; [simpl in Hu; lia | lia |].
    rewrite Z.pow_neg_r in Hu by lia. lia. }
  assert (2 ^ (k - 1) < 2 ^ Zpos (digits2_pos d)) by lia.
  assert (2 ^ (Zpos (digits2_pos d) - 1) < 2 ^ k) by lia.
  apply Z.pow_lt_mono_r_iff in H0; try lia.
  apply Z.pow_lt_mono_r_iff in H1; try lia.
Qed.

Lemma binary_round_aux_fits24 s m e l :
  0 <= m -> fits24 (binary_round_aux 24 128 s m e l).
Proof.
  intro Hm. unfold binary_round_aux.
  pose proof (Zdigits2_bound m Hm) as Hlt.
  assert (HD : 0 <= Zdigits2 m) by (destruct m; simpl; lia).
  (* first shift *)
  assert (H1 : let '(mrs1, e1) := shr_fexp 24 128 m e l in
               0 <= shr_m mrs1 < 2 ^ 24 /\ -149 <= e1).
  { unfold shr_fexp, shr. rewrite fexp32.
    destruct (Z.max (Zdigits2 m + e - 24) (-149) - e) as [|p|p] eqn:En.
    - rewrite shr_m_record_of_loc. split; [split; [lia|]|lia].
      apply Z.lt_le_trans with (2 ^ Zdigits2 m); [lia|].
      apply Z.pow_le_mono_r; lia.
    - destruct (iter_shr_1_bound p (shr_record_of_loc m l)) as [H0 H1];
        [rewrite shr_m_record_of_loc; exact Hm|].
      rewrite shr_m_record_of_loc in H1.
      split; [split; [exact H0|]|lia].
      apply Z.mul_lt_mono_pos_l with (2 ^ Zpos p);
        [apply Z.pow_pos_nonneg; lia|].
      rewrite <- Z.pow_add_r by lia.
      apply Z.le_lt_trans with m; [exact H1|].
      apply Z.lt_le_trans with (2 ^ Zdigits2 m); [lia|].
      apply Z.pow_le_mono_r; lia.
    - rewrite shr_m_record_of_loc. split; [split; [lia|]|lia].
      apply Z.lt_le_trans with (2 ^ Zdigits2 m); [lia|].
      apply Z.pow_le_mono_r; lia. }
  destruct (shr_fexp 24 128 m e l) as [mrs1 e1].
  destruct H1 as [[H0 H24] He1].
  pose proof (round_nearest_even_bound (shr_m mrs1) (loc_of_shr_record mrs1))
    as Hr.
  set (r := round_nearest_even (shr_m mrs1) (loc_of_shr_record mrs1)) in *.
  (* second shift *)
  assert (H2 : let '(mrs2, e2) := shr_fexp 24 128 r e1 loc_Exact in
               shr_m mrs2 < 2 ^ 24).
  { unfold shr_fexp, shr. rewrite fexp32.
    destruct (Z_lt_le_dec r (2 ^ 24)) as [Hlt24|Hge24].
    - destruct (Z.max (Zdigits2 r + e1 - 24) (-149) - e1) as [|p|p];
        simpl shr_m; try exact Hlt24.
      destruct (iter_shr_1_bound p (shr_record_of_loc r loc_Exact)) as [A B];
        [simpl; lia|].
      simpl shr_m in B.
      pose proof (Z.pow_pos_nonneg 2 (Zpos p)). nia.
    - assert (Er : r = 2 ^ 24) by lia. rewrite Er.
      change (Zdigits2 (2 ^ 24)) with 25.
      replace (Z.max (25 + e1 - 24) (-149) - e1) with 1 by lia.
      vm_compute. reflexivity. }
  destruct (shr_fexp 24 128 r e1 loc_Exact) as [mrs2 e2].
  destruct (shr_m mrs2) as [|p|p]; [exact I | | exact I].
  destruct (e2 <=? 128 - 24); [exact H2 | exact I].
Qed.

Lemma binary_round_fits24 s m e : fits24 (binary_round 24 128 s m e).
Proof.
  unfold binary_round.
  destruct (shl_align m e (fexp 24 128 (Zpos (digits2_pos m) + e))) as [mz ez].
  apply binary_round_aux_fits24. lia.
Qed.

(** Just above 2^20 the sum rounds back to 2^20. *)
Lemma binary_round_above_2p20 d ez w :
  ez <= -5 -> 0 <= w < 2 ^ (-4 - ez) ->
  Zpos d = 2 ^ (20 - ez) + w ->
  binary_round 24 128 false d ez = S754_finite false 8388608 (-3).
Proof.
  intros Hez Hw Hd.
  assert (P1 : 2 ^ (20 - ez) = 2 ^ 24 * 2 ^ (-4 - ez)).
  { rewrite <- Z.pow_add_r by lia. f_equal. lia. }
  assert (P2 : 2 ^ (-3 - ez) = 2 * 2 ^ (-4 - ez)).
  { replace (-3 - ez) with (1 + (-4 - ez)) by lia.
    rewrite Z.pow_add_r by lia. reflexivity. }
  assert (P0 : 0 < 2 ^ (-4 - ez)) by (apply Z.pow_pos_nonneg; lia).
  assert (Hdig : Zpos (digits2_pos d) = 21 - ez).
  { apply digits2_pos_unique. rewrite Hd.
    replace (21 - ez - 1) with (20 - ez) by lia.
    replace (21 - ez) with (1 + (20 - ez)) by lia.
    rewrite (Z.pow_add_r 2 1) by lia. rewrite P1. simpl (2 ^ 1). lia. }
  unfold binary_round, shl_align. rewrite Hdig, fexp32.
  replace (Z.max (21 - ez + ez - 24) (-149) - ez) with (-3 - ez) by lia.
  destruct (-3 - ez) as [|p|p] eqn:En; try lia.
  set (mrs := iter_pos shr_1 p (shr_record_of_loc (Zpos d) loc_Exact)).
  assert (E1 : shr_fexp 24 128 (Zpos d) ez loc_Exact = (mrs, -3)).
  { unfold shr_fexp. change (Zdigits2 (Zpos d)) with (Zpos (digits2_pos d)).
    rewrite Hdig, fexp32.
    replace (Z.max (21 - ez + ez - 24) (-149) - ez) with (Zpos p) by lia.
    unfold shr. fold mrs. f_equal. lia. }
  unfold binary_round_aux. rewrite E1.
  assert (Em : shr_m mrs = 2 ^ 23).
  { unfold mrs. rewrite iter_shr_1_m by (simpl; lia).
    rewrite shr_m_record_of_loc, Hd, P1, P2.
    symmetry. apply Z.div_unique with w; [lia|].
    change (2 ^ 24) with (2 * 2 ^ 23). lia. }
  assert (Er : shr_r mrs = false).
  { unfold mrs. rewrite iter_shr_1_r by (simpl; lia).
    rewrite shr_m_record_of_loc.
    replace (Zpos p - 1) with (-4 - ez) by lia.
    rewrite Hd, P1.
    replace ((2 ^ 24 * 2 ^ (-4 - ez) + w) / 2 ^ (-4 - ez)) with (2 ^ 24).
    - reflexivity.
    - apply Z.div_unique with w; lia. }
  clearbody mrs.
  destruct mrs as [m1 r1 s1]. simpl in Em, Er. subst m1 r1.
  destruct s1; vm_compute; reflexivity.
Qed.

(** A positive value under [2^k] rounds to a positive binary32 number that
    is at most [2^k]. *)
Lemma round_below k d ez :
  -149 <= k <= 104 -> Zpos d < 2 ^ (k - ez) ->
  match binary_round 24 128 false d ez with
  | S754_zero s => s = false
  | S754_finite s m e =>
      s = false /\ -149 <= e /\ Zpos m < 2 ^ 24 /\
      Zpos m * 2 ^ (e + 149) <= 2 ^ (k + 149)
  | _ => False
  end.
Proof.
  intros Hk Hd.
  assert (0 <= k - ez).
  { destruct (k - ez) as [|q|q]; try lia.
    rewrite Z.pow_neg_r in Hd; lia. }
  apply digits2_pos_le in Hd; [|lia].
  destruct (binary_round_shape false d ez k) as [Hs Hb]; [lia | lia |].
  specialize (Hb ltac:(lia)).
  pose proof (binary_round_fits24 false d ez) as Hf.
  destruct (binary_round 24 128 false d ez) as [s|s| |s m e];
    simpl in *; auto; try contradiction.
  tauto.
Qed.

Lemma exponent_le m e k :
  Zpos m * 2 ^ (e + 149) <= 2 ^ (k + 149) -> -149 <= e -> e <= k.
Proof.
  intros Hb He.
  assert (2 ^ (e + 149) <= 2 ^ (k + 149)).
  { pose proof (Z.pow_pos_nonneg 2 (e + 149)). nia. }
  destruct (Z_lt_le_dec (k + 149) 0) as [Hneg|Hpos].
  - rewrite (Z.pow_neg_r 2 (k + 149)) in H by lia.
    pose proof (Z.pow_pos_nonneg 2 (e + 149)). lia.
  - apply Z.pow_le_mono_r_iff in H; lia.
Qed.

Lemma scale_bound m e k ez :
  -149 <= e -> ez <= e ->
  Zpos m * 2 ^ (e + 149) <= 2 ^ (k + 149) ->
  Zpos m * 2 ^ (e - ez) <= 2 ^ (k - ez).
Proof.
  intros He Hle Hb.
  pose proof (exponent_le m e k Hb He) as Hek.
  assert (Hm : Zpos m <= 2 ^ (k - e)).
  { apply Z.mul_le_mono_pos_r with (2 ^ (e + 149)).
    - apply Z.pow_pos_nonneg; lia.
    - rewrite <- Z.pow_add_r by lia.
      replace (k - e + (e + 149)) with (k + 149) by lia. exact Hb. }
  replace (k - ez) with ((k - e) + (e - ez)) by lia.
  rewrite Z.pow_add_r by lia.
  apply Z.mul_le_mono_nonneg_r; [apply Z.pow_nonneg; lia | exact Hm].
Qed.

Lemma add_finite sx mx ex sy my ey :
  F32.add (S754_finite sx mx ex) (S754_finite sy my ey)
  = binary_normalize 24 128
      (cond_Zopp sx (Zpos mx * 2 ^ (ex - Z.min ex ey))
       + cond_Zopp sy (Zpos my * 2 ^ (ey - Z.min ex ey)))
      (Z.min ex ey) false.
Proof.
  rewrite <- (shl_align_fst mx ex (Z.min ex ey)) by lia.
  rewrite <- (shl_align_fst my ey (Z.min ex ey)) by lia.
  reflexivity.
Qed.

Lemma binary_normalize_neg z ez :
  z < 0 -> signed true (binary_normalize 24 128 z ez false).
Proof.
  destruct z as [|q|q]; try lia. intros _. apply binary_round_signed.
Qed.

Lemma binary_normalize_below k z ez :
  -149 <= k <= 104 -> 0 <= z < 2 ^ (k - ez) ->
  match binary_normalize 24 128 z ez false with
  | S754_zero s => s = false
  | S754_finite s m e =>
      s = false /\ -149 <= e /\ Zpos m < 2 ^ 24 /\
      Zpos m * 2 ^ (e + 149) <= 2 ^ (k + 149)
  | _ => False
  end.
Proof.
  intros Hk Hz. destruct z as [|d|d]; try lia.
  - reflexivity.
  - apply round_below; [exact Hk | lia].
Qed.

Lemma signed_true_velocityOK a : signed true a -> velocityOK a.
Proof. destruct a as [s|s| |s m e]; simpl; intros; subst; auto. Qed.

Lemma signed_true_fallenOK a : signed true a -> fallenOK a.
Proof. destruct a as [s|s| |s m e]; simpl; intros; subst; auto. Qed.

Lemma below_velocityOK a :
  match a with
  | S754_zero s => s = false
  | S754_finite s m e =>
      s = false /\ -149 <= e /\ Zpos m < 2 ^ 24 /\
      Zpos m * 2 ^ (e + 149) <= 2 ^ (-5 + 149)
  | _ => False
  end -> velocityOK a.
Proof.
  destruct a as [s|s| |s m e]; try tauto.
  - intros _. exact I.
  - intros (-> & H). exact H.
Qed.

Lemma below_positionOK k a :
  k <= 20 ->
  match a with
  | S754_zero s => s = false
  | S754_finite s m e =>
      s = false /\ -149 <= e /\ Zpos m < 2 ^ 24 /\
      Zpos m * 2 ^ (e + 149) <= 2 ^ (k + 149)
  | _ => False
  end -> positionOK a.
Proof.
  intro Hk. destruct a as [s|s| |s m e]; try tauto.
  - intros _. exact I.
  - intros (-> & He & Hm & Hb). unfold positionOK.
    repeat split; try assumption.
    eapply Z.le_trans; [exact Hb|].
    change 169 with (20 + 149). destruct (Z_lt_le_dec (k + 149) 0).
    + rewrite Z.pow_neg_r by lia. apply Z.pow_nonneg; lia.
    + apply Z.pow_le_mono_r; lia.
Qed.

Lemma pow2_pos n : 0 <= n -> 0 < 2 ^ n.
Proof. intro. apply Z.pow_pos_nonneg; lia. Qed.

Lemma add_velocityOK v p :
  velocityOK v -> nonpositive p -> velocityOK (F32.add v p).
Proof.
  intros Hv Hp.
  destruct p as [sp|sp| |sp mp ep]; simpl in Hp; try contradiction.
  - destruct v as [sv|[]| |sv mv ev]; simpl in Hv; try contradiction.
    + destruct sv, sp; exact I.
    + exact I.
    + exact Hv.
  - subst sp.
    destruct v as [sv|[]| |sv mv ev]; simpl in Hv; try contradiction; exact I.
  - subst sp.
    destruct v as [sv|[]| |sv mv ev]; simpl in Hv; try contradiction.
    + exact I.
    + exact I.
    + rewrite add_finite. set (ez := Z.min ev ep).
      pose proof (pow2_pos (ev - ez) ltac:(lia)).
      pose proof (pow2_pos (ep - ez) ltac:(lia)).
      destruct sv; unfold cond_Zopp.
      * apply signed_true_velocityOK, binary_normalize_neg. nia.
      * destruct Hv as (He & Hm & Hb).
        pose proof (scale_bound mv ev (-5) ez He ltac:(lia) Hb) as Hs.
        destruct (Z_lt_le_dec
                    (Zpos mv * 2 ^ (ev - ez) + - (Zpos mp * 2 ^ (ep - ez))) 0).
        -- apply signed_true_velocityOK, binary_normalize_neg. lia.
        -- apply below_velocityOK.
           apply binary_normalize_below; [lia|]. nia.
Qed.

(** A position of at most 2^20 plus a velocity of at most 2^-5: the sum stays
    at most 2^20, because 2^20 + 2^-5 rounds back to 2^20. *)
Lemma add_saturates my ey mv ev :
  positionOK (S754_finite false my ey) ->
  velocityOK (S754_finite false mv ev) ->
  positionOK (F32.add (S754_finite false my ey) (S754_finite false mv ev)).
Proof.
  intros (Hey & Hmy & Hby) (Hev & Hmv & Hbv).
  rewrite add_finite. unfold cond_Zopp. set (ez := Z.min ey ev).
  pose proof (exponent_le mv ev (-5) Hbv Hev) as Hev5.
  pose proof (exponent_le my ey 20 Hby Hey) as Hey20.
  pose proof (scale_bound mv ev (-5) ez Hev ltac:(lia) Hbv) as Hsv.
  pose proof (scale_bound my ey 20 ez Hey ltac:(lia) Hby) as Hsy.
  set (Y := Zpos my * 2 ^ (ey - ez)) in *.
  set (V := Zpos mv * 2 ^ (ev - ez)) in *.
  assert (HY : 0 < Y) by (apply Z.mul_pos_pos; [lia | apply pow2_pos; lia]).
  assert (HV : 0 < V) by (apply Z.mul_pos_pos; [lia | apply pow2_pos; lia]).
  set (U := 2 ^ (-5 - ez)) in *.
  assert (HU : 0 < U) by (apply pow2_pos; lia).
  assert (P4 : 2 ^ (-4 - ez) = 2 * U).
  { unfold U. replace (-4 - ez) with (1 + (-5 - ez)) by lia.
    rewrite Z.pow_add_r by lia. reflexivity. }
  assert (P20 : 2 ^ (20 - ez) = 2 ^ 25 * U).
  { unfold U. rewrite <- Z.pow_add_r by lia. f_equal. lia. }
  destruct (Z_lt_le_dec (Y + V) (2 ^ (20 - ez))) as [Hlt|Hge].
  - apply (below_positionOK 20); [lia|].
    apply binary_normalize_below; lia.
  - (* the sum reaches 2^20: the position is 2^20 itself *)
    assert (EY : Y = 2 ^ (20 - ez)).
    { destruct (Z_lt_le_dec Y (2 ^ (20 - ez))) as [HYlt|HYge]; [|lia].
      exfalso. rewrite P20 in *.
      destruct (Z_le_gt_dec ey (-5)) as [Hsmall|Hbig].
      - assert (2 ^ (ey - ez) <= U)
          by (apply Z.pow_le_mono_r; lia).
        assert (Y < 2 ^ 24 * U).
        { unfold Y. apply Z.lt_le_trans with (2 ^ 24 * 2 ^ (ey - ez)).
          - apply Z.mul_lt_mono_pos_r; [apply pow2_pos; lia | exact Hmy].
          - apply Z.mul_le_mono_nonneg_l; lia. }
        change (2 ^ 25) with (2 * 2 ^ 24) in Hge. lia.
      - assert (EP : 2 ^ (ey - ez) = 2 ^ (ey + 4) * (2 * U)).
        { rewrite <- P4, <- Z.pow_add_r by lia. f_equal. lia. }
        assert (E25 : 2 ^ 25 * U = 2 ^ (20 - ey) * 2 ^ (ey - ez)).
        { rewrite <- P20, <- Z.pow_add_r by lia. f_equal. lia. }
        pose proof (pow2_pos (ey + 4) ltac:(lia)).
        pose proof (pow2_pos (ey - ez) ltac:(lia)).
        assert (Zpos my < 2 ^ (20 - ey)).
        { apply Z.mul_lt_mono_pos_r with (2 ^ (ey - ez)); [lia|].
          fold Y. lia. }
        assert (Y + 2 ^ (ey - ez) <= 2 ^ 25 * U).
        { rewrite E25. unfold Y. nia. }
        nia. }
    assert (Ed : exists d, Zpos d = 2 ^ (20 - ez) + V).
    { destruct (Y + V) as [|d|d] eqn:E; try lia. exists d. lia. }
    destruct Ed as [d Ed].
    replace (Y + V) with (Zpos d) by lia.
    change (binary_normalize 24 128 (Zpos d) ez false)
      with (binary_round 24 128 false d ez).
    rewrite (binary_round_above_2p20 d ez V); [| lia | | exact Ed].
    + unfold positionOK. repeat split; vm_compute; congruence.
    + rewrite P4. lia.
Qed.

Lemma velocityOK_positionOK v :
  velocityOK v -> fallenOK v.
Proof.
  destruct v as [s|[]| |[] m e]; try tauto.
  intros (He & Hm & Hb). unfold fallenOK, positionOK.
  repeat split; try assumption.
  eapply Z.le_trans; [exact Hb|]. apply Z.pow_le_mono_r; lia.
Qed.

Lemma add_positionOK p v :
  positionOK p -> velocityOK v -> fallenOK (F32.add p v).
Proof.
  intros Hp Hv.
  destruct p as [sp|sp| |sp mp ep]; simpl in Hp; try contradiction.
  - (* the position is a zero *)
    destruct v as [sv|[]| |sv mv ev]; simpl in Hv; try contradiction.
    + destruct sp, sv; exact I.
    + exact I.
    + apply (velocityOK_positionOK (S754_finite sv mv ev)), Hv.
  - destruct v as [sv|[]| |sv mv ev]; simpl in Hv; try contradiction.
    + (* zero velocity *)
      change (F32.add (S754_finite sp mp ep) (S754_zero sv))
        with (S754_finite sp mp ep).
      destruct sp; exact Hp.
    + exact I.
    + rewrite add_finite. set (ez := Z.min ep ev).
      pose proof (pow2_pos (ep - ez) ltac:(lia)).
      pose proof (pow2_pos (ev - ez) ltac:(lia)).
      destruct sp, sv.
      * apply signed_true_fallenOK, binary_normalize_neg.
        unfold cond_Zopp. nia.
      * (* negative position, positive velocity *)
        unfold cond_Zopp. destruct Hv as (He & Hm & Hb).
        pose proof (scale_bound mv ev (-5) ez He ltac:(lia) Hb) as Hs.
        destruct (Z_lt_le_dec
                    (- (Zpos mp * 2 ^ (ep - ez)) + Zpos mv * 2 ^ (ev - ez)) 0).
        -- apply signed_true_fallenOK, binary_normalize_neg. lia.
        -- assert (Q : positionOK
                     (binary_normalize 24 128
                        (- (Zpos mp * 2 ^ (ep - ez)) + Zpos mv * 2 ^ (ev - ez))
                        ez false)).
           { apply (below_positionOK (-5)); [lia|].
             apply binary_normalize_below; [lia|]. nia. }
           destruct (binary_normalize 24 128 _ ez false) as [s|s| |s m e];
             try contradiction; exact Q.
      * (* positive position, negative velocity *)
        unfold cond_Zopp. destruct Hp as (He & Hm & Hb).
        pose proof (scale_bound mp ep 20 ez He ltac:(lia) Hb) as Hs.
        destruct (Z_lt_le_dec
                    (Zpos mp * 2 ^ (ep - ez) + - (Zpos mv * 2 ^ (ev - ez))) 0).
        -- apply signed_true_fallenOK, binary_normalize_neg. lia.
        -- assert (Q : positionOK
                     (binary_normalize 24 128
                        (Zpos mp * 2 ^ (ep - ez) + - (Zpos mv * 2 ^ (ev - ez)))
                        ez false)).
           { apply (below_positionOK 20); [lia|].
             apply binary_normalize_below; [lia|]. nia. }
           destruct (binary_normalize 24 128 _ ez false) as [s|s| |s m e];
             try contradiction; exact Q.
      * pose proof (add_saturates mp ep mv ev Hp Hv) as Q.
        rewrite add_finite in Q. fold ez in Q.
        destruct (binary_normalize 24 128 _ ez false) as [s|s| |s m e];
          try contradiction; exact Q.
Qed.

End Rounding.

(** ** The player never sinks below the ground *)

Lemma never_below_any_run (cs : list Call) :
  forall g,
    belowGround g = false ->
    Forall (fun g' => belowGround g' = false) (history cs g).
Proof.
  induction cs as [|c cs IH]; intros g Hg; simpl.
  - constructor; [exact Hg | constructor].
  - constructor; [exact Hg |].
    apply IH, call_not_below, Hg.
Qed.

(** *** The ordinate stays a number along every run with [dt >= 0] *)

Lemma gravity_dt_nonpositive dt :
  nonneg dt = true -> nonpositive (F32.mul gravity dt).
Proof.
  intro H. apply nonneg_nonnegative in H.
  destruct dt as [s|s| |s m e]; simpl in H; try contradiction; subst.
  - exact I.
  - reflexivity.
  - pose proof (binary_round_aux_signed true (16106127 * m) (-28 + e)) as Hs.
    change (F32.mul gravity (S754_finite false m e))
      with (binary_round_aux 24 128 true
              (Zpos (16106127 * m)) (-28 + e) loc_Exact).
    destruct (binary_round_aux 24 128 true _ _ loc_Exact);
      simpl in *; auto.
Qed.

Lemma updatePhysics_playerOK dt g :
  nonneg dt = true -> playerOK g -> playerOK (updatePhysics dt g).
Proof.
  intros Hdt [Hp Hv]. rewrite updatePhysics_eq. cbv zeta.
  pose proof (add_velocityOK _ _ Hv (gravity_dt_nonpositive dt Hdt)) as Hv'.
  pose proof (add_positionOK _ _ Hp Hv') as Hp'.
  set (v := F32.add (playerVelocity g) (F32.mul gravity dt)) in *.
  set (q := F32.add (playerY g) v) in *.
  destruct (F32.lt q groundLevel) eqn:E; split; simpl.
  - exact I.
  - exact I.
  - destruct q as [s|[]| |s m e]; try exact Hp'; discriminate.
  - exact Hv'.
Qed.

Lemma playerVelocity_beforeScan dt g :
  playerVelocity (beforeScan dt g) = playerVelocity (updatePhysics dt g).
Proof.
  unfold beforeScan. simpl. apply spawnSpikes_frame.
Qed.

Lemma step_playerOK dt g :
  nonneg dt = true -> playerOK g -> playerOK (exec (step dt) g).
Proof.
  intros Hdt Hg. rewrite exec_step, exec_checkCollisions.
  destruct existsb.
  - split; exact I.
  - unfold playerOK. rewrite playerY_beforeScan, playerVelocity_beforeScan.
    apply updatePhysics_playerOK; assumption.
Qed.

Lemma onKeyDown_playerOK k g : playerOK g -> playerOK (exec (onKeyDown k) g).
Proof.
  intros [Hp Hv]. unfold onKeyDown.
  destruct (k =? 32)%Z; [|split; assumption].
  rewrite exec_bind. simpl fst. rewrite exec_gets.
  destruct (isOnGround g); [|split; assumption].
  split; [exact Hp|].
  simpl. repeat split; vm_compute; congruence.
Qed.

Lemma history_playerOK cs :
  forall g,
    forallb nonnegCall cs = true -> playerOK g ->
    Forall playerOK (history cs g).
Proof.
  induction cs as [|c cs IH]; simpl; intros g Hcs Hg.
  - constructor; [exact Hg | constructor].
  - apply andb_true_iff in Hcs. destruct Hcs as [Hc Hcs].
    constructor; [exact Hg|]. apply IH; [exact Hcs|].
    destruct c as [dt|k]; simpl.
    + apply step_playerOK; assumption.
    + apply onKeyDown_playerOK, Hg.
Qed.

Lemma positionOK_is_number q : positionOK q -> F32.is_nan q = false.
Proof. destruct q as [s|s| |[] m e]; simpl; tauto. Qed.

(** C1.  Along every run of frames with non-negative frame times and of key
    presses, from the initial state, every state the program goes through has
    its player ordinate not below the ground level [-0.4f]; the ordinate is
    moreover a number (never NaN), so it is at or above the ground level in
    the sense of [>=] as well. *)
Theorem player_never_below_ground :
  forall (cs : list Call) (h : GLHandles),
    forallb nonnegCall cs = true ->
    Forall (fun g => belowGround g = false /\
                     F32.ge (playerY g) groundLevel = true)
           (history cs (initial h)).
Proof.
  intros cs h Hcs.
  assert (H1 : Forall (fun g => belowGround g = false)
                 (history cs (initial h)))
    by (apply never_below_any_run; reflexivity).
  assert (H2 : Forall playerOK (history cs (initial h)))
    by (apply history_playerOK; [exact Hcs | split; exact I]).
  rewrite Forall_forall in *. intros g Hg.
  specialize (H1 g Hg). destruct (H2 g Hg) as [Hp _].
  split; [exact H1|].
  rewrite ge_is_not_lt;
    [ unfold belowGround in H1; rewrite H1; reflexivity
    | apply positionOK_is_number, Hp
    | reflexivity ].
Qed.

Lemma player_never_below_ground_witness :
  let cs := [KeyDown 32; Frame one; Frame five; KeyDown 32; Frame zero] in
  forallb nonnegCall cs = true /\
  Forall (fun g => belowGround g = false /\
                   F32.ge (playerY g) groundLevel = true)
         (history cs start).
Proof.
  cbv zeta. split.
  - reflexivity.
  - apply (player_never_below_ground
             [KeyDown 32; Frame one; Frame five; KeyDown 32; Frame zero]
             staticHandles).
    reflexivity.
Defined.

(** ** Collision reset *)

(** C2.  When some obstacle that survived pruning overlaps the player at the
    collision scan of a frame, the frame ends with the player at the ground
    level, velocity 0, on the ground, and no obstacle left.  The scan is
    decided by the obstacles up to the first overlapping one: whatever
    follows it in the list is not looked at, the scan behaves as the single
    reset. *)
Theorem collision_resets :
  forall (dt : float) (g : Globals),
    let g1 := beforeScan dt g in
    existsb (overlaps (playerY g1)) (spikes g1) = true ->
    let g' := exec (step dt) g in
    (playerY g' = groundLevel /\ playerVelocity g' = zero /\
     isOnGround g' = true /\ spikes g' = []) /\
    exists pre s post,
      spikes g1 = (pre ++ s :: post)%list /\
      existsb (overlaps (playerY g1)) pre = false /\
      overlaps (playerY g1) s = true /\
      forall rest, collisionLoop (pre ++ s :: rest) g1 = resetOnCollision g1.
Proof.
  intros dt g g1 H g'. split.
  - subst g'. rewrite exec_step, exec_checkCollisions.
    fold g1. rewrite H. repeat split.
  - destruct (first_hit _ _ H) as (pre & s & post & E & Hpre & Hs).
    exists pre, s, post. repeat split; try assumption.
    intro rest. apply collisionLoop_first_hit; assumption.
Qed.

Lemma collision_resets_witness :
  existsb (overlaps (playerY (beforeScan zero grounded)))
          (spikes (beforeScan zero grounded)) = true /\
  spikes (exec (step zero) grounded) = [].
Proof.
  split.
  - vm_compute. reflexivity.
  - apply (collision_resets zero grounded). vm_compute. reflexivity.
Defined.

(** C10.  A frame never touches the spawn timer after its spawn block: the
    timer at the end of the frame is the one the spawn block left, and in a
    frame with a collision the final state is the state before the scan with
    only the player fields and the obstacle list overwritten. *)
Theorem collision_keeps_spawn_timer :
  forall (dt : float) (g : Globals),
    let g1 := beforeScan dt g in
    existsb (overlaps (playerY g1)) (spikes g1) = true ->
    spikeSpawnTimer (exec (step dt) g)
      = spikeSpawnTimer (spawnSpikes dt (updatePhysics dt g)) /\
    exec (step dt) g =
      {| gl := gl g1; playerY := groundLevel; playerVelocity := zero;
         isOnGround := true; spikeSpawnTimer := spikeSpawnTimer g1;
         lastFrameTime := lastFrameTime g1; spikes := [] |}.
Proof.
  intros dt g g1 H.
  rewrite exec_step, exec_checkCollisions. fold g1. rewrite H.
  split; reflexivity.
Qed.

Lemma collision_keeps_spawn_timer_witness :
  let g := run (frames [one; one; one]) start in
  existsb (overlaps (playerY (beforeScan one g)))
          (spikes (beforeScan one g)) = true /\
  spikeSpawnTimer (exec (step one) g)
    = spikeSpawnTimer (spawnSpikes one (updatePhysics one g)) /\
  spikeSpawnTimer (exec (step one) grounded) = one.
Proof.
  cbv zeta. split; [|split].
  - vm_compute. reflexivity.
  - apply (collision_keeps_spawn_timer one (run (frames [one; one; one]) start)).
    vm_compute. reflexivity.
  - apply (collision_keeps_spawn_timer one grounded). vm_compute. reflexivity.
Defined.

(** ** The key handler *)

(** C5.  A press of the space key (code 32) on a grounded player sets the
    velocity to the jump constant and clears the ground flag, touching
    nothing else; on an airborne player it changes nothing at all.  The
    handler is a function of the state and logs no outside call. *)
Theorem jump_command :
  forall g : Globals,
    exec (onKeyDown 32) g =
      (if isOnGround g then
         {| gl := gl g; playerY := playerY g; playerVelocity := jumpVelocity;
            isOnGround := false; spikeSpawnTimer := spikeSpawnTimer g;
            lastFrameTime := lastFrameTime g; spikes := spikes g |}
       else g) /\
    output (onKeyDown 32) g = [].
Proof.
  intro g. unfold onKeyDown. simpl (32 =? 32)%Z. cbv iota.
  rewrite exec_bind, output_bind. simpl fst. rewrite exec_gets.
  destruct (isOnGround g); split; reflexivity.
Qed.

(** ** The renderer *)

Lemma exec_for_each (body : Spike -> M unit) :
  (forall s g, exec (body s) g = g) ->
  forall l g, exec (for_each l body) g = g.
Proof.
  intros Hbody. induction l as [|s l IH]; intro g; simpl.
  - reflexivity.
  - rewrite exec_bind, Hbody. apply IH.
Qed.

(** C8.  [render] leaves every global as it found it: position, velocity,
    ground flag, obstacle list, spawn timer (and the frame clock and the
    handles) are the same after the call as before. *)
Theorem render_does_not_mutate :
  forall g : Globals,
    let g' := exec render g in
    g' = g /\
    playerY g' = playerY g /\ playerVelocity g' = playerVelocity g /\
    isOnGround g' = isOnGround g /\ spikes g' = spikes g /\
    spikeSpawnTimer g' = spikeSpawnTimer g.
Proof.
  intro g. cbv zeta.
  assert (E : exec render g = g).
  { unfold render.
    repeat first
      [ rewrite exec_bind
      | rewrite exec_emit
      | rewrite exec_gets
      | rewrite exec_for_each by reflexivity ].
    reflexivity. }
  rewrite E. repeat split.
Qed.

(** ** Spawning *)

Lemma spawnSpikes_spikes dt g :
  spikes (spawnSpikes dt g) =
  if spawnDue dt g then (spikes g ++ [newSpike])%list else spikes g.
Proof.
  unfold spawnSpikes, spawnDue. cbv zeta. simpl spikeSpawnTimer at 1.
  destruct F32.ge; reflexivity.
Qed.

Lemma spawnSpikes_timer dt g :
  spikeSpawnTimer (spawnSpikes dt g) =
  if spawnDue dt g then zero else (spikeSpawnTimer g + dt)%f32.
Proof.
  unfold spawnSpikes, spawnDue. cbv zeta. simpl spikeSpawnTimer at 2.
  destruct F32.ge; reflexivity.
Qed.

Lemma spawnedBy_due dt g : spawnedBy dt g = if spawnDue dt g then 1 else 0.
Proof.
  unfold spawnedBy. rewrite spawnSpikes_spikes.
  destruct spawnDue.
  - rewrite length_app. simpl. lia.
  - lia.
Qed.

Lemma length_checkCollisions g :
  List.length (spikes (exec checkCollisions g)) <= List.length (spikes g).
Proof.
  rewrite exec_checkCollisions. destruct existsb; simpl; lia.
Qed.

Lemma length_step dt g :
  List.length (spikes (exec (step dt) g))
  <= List.length (spikes g) + spawnedInFrame dt g.
Proof.
  rewrite exec_step.
  eapply Nat.le_trans; [apply length_checkCollisions|].
  unfold beforeScan, removeOffscreen, moveSpikes, erase_remove_if. simpl.
  eapply Nat.le_trans; [apply filter_length_le|].
  rewrite length_map.
  unfold spawnedInFrame. rewrite spawnedBy_due, spawnSpikes_spikes.
  destruct (updatePhysics_frame dt g) as [-> _].
  destruct spawnDue.
  - rewrite length_app. simpl. lia.
  - lia.
Qed.

(** C9.  One call of [update] appends at most one obstacle, whatever time it
    measured: the spawn block pushes nothing or exactly one spike, so the list
    grows by at most one over the call, and a frame of 5 s, which spans two
    whole spawn intervals, still spawns a single spike. *)
Theorem update_spawns_at_most_one :
  forall (currentTime : double) (dt : float) (g : Globals),
    (spikes (spawnSpikes dt g) = spikes g \/
     spikes (spawnSpikes dt g) = (spikes g ++ [newSpike])%list) /\
    spawnedInFrame dt g <= 1 /\
    List.length (spikes (exec (step dt) g)) <= List.length (spikes g) + 1 /\
    List.length (spikes (exec (update currentTime) g))
      <= List.length (spikes g) + 1 /\
    spawnedInFrame five start = 1.
Proof.
  intros t dt g.
  assert (H1 : forall d g0, spawnedInFrame d g0 <= 1).
  { intros d g0. unfold spawnedInFrame. rewrite spawnedBy_due.
    destruct spawnDue; lia. }
  assert (H2 : forall d g0,
             List.length (spikes (exec (step d) g0))
             <= List.length (spikes g0) + 1).
  { intros d g0. pose proof (length_step d g0). pose proof (H1 d g0). lia. }
  repeat split.
  - rewrite spawnSpikes_spikes. destruct spawnDue; auto.
  - apply H1.
  - apply H2.
  - rewrite exec_update.
    apply (H2 (deltaTimeAt t g) (set_lastFrameTime t g)).
Qed.

(** ** Pruning *)

Lemma erase_remove_if_In p l s :
  In s (erase_remove_if p l) <-> In s l /\ p s = false.
Proof.
  unfold erase_remove_if. rewrite filter_In, negb_true_iff. reflexivity.
Qed.

Lemma spikes_step_onscreen dt g :
  Forall (fun s => offscreen s = false) (spikes (exec (step dt) g)).
Proof.
  rewrite exec_step, exec_checkCollisions.
  destruct existsb; simpl.
  - constructor.
  - apply Forall_forall. intros s Hs.
    apply erase_remove_if_In in Hs. apply Hs.
Qed.

(** On a list whose abscissas are numbers, what the erase/remove_if idiom
    keeps is what the comparison [>=] selects. *)
Lemma pruning_on_numbers (l : list Spike) :
  Forall (fun s => F32.is_nan (x s) = false) l ->
  erase_remove_if offscreen l = filter (fun s => F32.ge (x s) despawnX) l /\
  Forall (fun s => F32.ge (x s) despawnX = true) (erase_remove_if offscreen l).
Proof.
  intro Hnum. rewrite Forall_forall in Hnum.
  assert (Hge : forall s, In s l ->
                  F32.ge (x s) despawnX = negb (offscreen s)).
  { intros s Hs. apply ge_is_not_lt; [apply Hnum, Hs | reflexivity]. }
  split.
  - unfold erase_remove_if.
    apply filter_ext_in. intros s Hs. symmetry. apply Hge, Hs.
  - apply Forall_forall. intros s Hs.
    apply erase_remove_if_In in Hs. destruct Hs as [Hs Hoff].
    rewrite (Hge s Hs), Hoff. reflexivity.
Qed.

(** *** The abscissas stay numbers along every run with [dt >= 0] *)

Lemma displacement_nonnegative dt :
  nonneg dt = true ->
  nonnegative (F32.mul (F32.mul scrollSpeed dt) sixty).
Proof.
  intro H. apply nonneg_nonnegative in H.
  apply mul_finite_nonnegative.
  apply (mul_finite_nonnegative 10737418 (-29) dt H).
Qed.

Lemma moveSpike_movedOK dt s :
  nonneg dt = true -> spikeOK (x s) -> movedOK (x (moveSpike dt s)).
Proof.
  intros Hdt Hs. simpl.
  apply sub_movedOK; [exact Hs | apply displacement_nonnegative, Hdt].
Qed.

Lemma movedOK_is_number a : movedOK a -> F32.is_nan a = false.
Proof. destruct a as [s|[]| |[] m e]; simpl; tauto. Qed.

Lemma movedOK_kept a : movedOK a -> F32.lt a despawnX = false -> spikeOK a.
Proof.
  destruct a as [s|[]| |[] m e]; simpl; auto; discriminate.
Qed.

Lemma spawnSpikes_spikesOK dt g : spikesOK g -> spikesOK (spawnSpikes dt g).
Proof.
  unfold spikesOK. rewrite spawnSpikes_spikes. intro H.
  destruct spawnDue; [|exact H].
  apply Forall_app. split; [exact H|].
  constructor; [|constructor].
  simpl. split; [lia | vm_compute; discriminate].
Qed.

Lemma moved_movedOK dt g :
  nonneg dt = true -> spikesOK g ->
  Forall (fun s => movedOK (x s))
    (spikes (moveSpikes dt (spawnSpikes dt (updatePhysics dt g)))).
Proof.
  intros Hdt Hg.
  assert (H : spikesOK (spawnSpikes dt (updatePhysics dt g))).
  { apply spawnSpikes_spikesOK. unfold spikesOK.
    destruct (updatePhysics_frame dt g) as [-> _]. exact Hg. }
  unfold spikesOK in H. simpl. rewrite Forall_forall in *.
  intros s Hs. apply in_map_iff in Hs. destruct Hs as (s0 & <- & Hs0).
  apply moveSpike_movedOK; [exact Hdt | apply H, Hs0].
Qed.

Lemma step_spikesOK dt g :
  nonneg dt = true -> spikesOK g -> spikesOK (exec (step dt) g).
Proof.
  intros Hdt Hg. unfold spikesOK.
  rewrite exec_step, exec_checkCollisions.
  destruct existsb; [constructor|].
  pose proof (moved_movedOK dt g Hdt Hg) as Hm.
  rewrite Forall_forall in *. intros s Hs.
  apply erase_remove_if_In in Hs. destruct Hs as [Hs Hoff].
  apply movedOK_kept; [apply Hm, Hs | exact Hoff].
Qed.

Lemma spikes_onKeyDown k g : spikes (exec (onKeyDown k) g) = spikes g.
Proof.
  unfold onKeyDown.
  destruct (k =? 32)%Z; [|reflexivity].
  rewrite exec_bind. simpl fst. rewrite exec_gets.
  destruct (isOnGround g); reflexivity.
Qed.

Lemma run_spikesOK cs :
  forall g, forallb nonnegCall cs = true -> spikesOK g -> spikesOK (run cs g).
Proof.
  induction cs as [|c cs IH]; simpl; intros g Hcs Hg.
  - exact Hg.
  - apply andb_true_iff in Hcs. destruct Hcs as [Hc Hcs].
    apply IH; [exact Hcs|].
    destruct c as [dt|k]; simpl.
    + apply step_spikesOK; assumption.
    + unfold spikesOK. rewrite spikes_onKeyDown. exact Hg.
Qed.

Lemma moved_numbers dt g :
  nonneg dt = true -> spikesOK g ->
  Forall (fun s => F32.is_nan (x s) = false)
    (spikes (moveSpikes dt (spawnSpikes dt (updatePhysics dt g)))).
Proof.
  intros Hdt Hg.
  eapply Forall_impl; [|apply (moved_movedOK dt g Hdt Hg)].
  intros s. apply movedOK_is_number.
Qed.

Lemma step_onscreen dt g :
  nonneg dt = true -> spikesOK g ->
  Forall (fun s => F32.ge (x s) despawnX = true) (spikes (exec (step dt) g)).
Proof.
  intros Hdt Hg. rewrite exec_step, exec_checkCollisions.
  destruct existsb; [constructor|].
  apply (pruning_on_numbers _ (moved_numbers dt g Hdt Hg)).
Qed.

Lemma run_onscreen cs :
  forall g,
    forallb nonnegCall cs = true -> spikesOK g ->
    Forall (fun s => F32.ge (x s) despawnX = true) (spikes g) ->
    Forall (fun s => F32.ge (x s) despawnX = true) (spikes (run cs g)).
Proof.
  induction cs as [|c cs IH]; simpl; intros g Hcs Hg Hge.
  - exact Hge.
  - apply andb_true_iff in Hcs. destruct Hcs as [Hc Hcs].
    destruct c as [dt|k]; simpl; apply IH; try exact Hcs.
    + apply step_spikesOK; assumption.
    + apply step_onscreen; assumption.
    + unfold spikesOK. rewrite spikes_onKeyDown. exact Hg.
    + rewrite spikes_onKeyDown. exact Hge.
Qed.

(** C4.  In every frame of every run from the initial state whose frame
    times are non-negative, pruning keeps, in their order, exactly the
    obstacles whose abscissa is at or above the despawn threshold [-1.2f];
    every obstacle it drops was below the threshold; no obstacle below the
    threshold is left when the frame is complete, and every obstacle in the
    list between two frames is at or above it. *)
Theorem pruning_keeps_exactly_onscreen :
  forall (cs : list Call) (h : GLHandles) (dt : float),
    forallb nonnegCall cs = true ->
    nonneg dt = true ->
    let g := run cs (initial h) in
    let moved := spikes (moveSpikes dt (spawnSpikes dt (updatePhysics dt g))) in
    let kept := spikes (beforeScan dt g) in
    kept = filter (fun s => F32.ge (x s) despawnX) moved /\
    (forall s, In s moved -> ~ In s kept -> F32.lt (x s) despawnX = true) /\
    Forall (fun s => F32.ge (x s) despawnX = true) kept /\
    Forall (fun s => F32.lt (x s) despawnX = false)
           (spikes (exec (step dt) g)) /\
    Forall (fun s => F32.ge (x s) despawnX = true)
           (spikes (exec (step dt) g)) /\
    Forall (fun s => F32.ge (x s) despawnX = true) (spikes g).
Proof.
  intros cs h dt Hcs Hdt g moved kept.
  assert (Hg : spikesOK g).
  { apply run_spikesOK; [exact Hcs | constructor]. }
  assert (Hkept : kept = erase_remove_if offscreen moved) by reflexivity.
  destruct (pruning_on_numbers moved (moved_numbers dt g Hdt Hg))
    as [Hfilter Hge].
  repeat split.
  - rewrite Hkept. exact Hfilter.
  - intros s Hs Hout. rewrite Hkept, erase_remove_if_In in Hout.
    destruct (offscreen s) eqn:E; [exact E|].
    exfalso. apply Hout. split; [exact Hs | reflexivity].
  - rewrite Hkept. exact Hge.
  - apply spikes_step_onscreen.
  - apply step_onscreen; assumption.
  - apply run_onscreen; [exact Hcs | constructor | constructor].
Qed.

Lemma pruning_keeps_exactly_onscreen_witness :
  let cs := [Frame one; Frame one; KeyDown 32; Frame zero; Frame one] in
  let g := run cs start in
  forallb nonnegCall cs = true /\
  nonneg onePointFive = true /\
  spikes (beforeScan onePointFive g)
    = filter (fun s => F32.ge (x s) despawnX)
        (spikes (moveSpikes onePointFive
                   (spawnSpikes onePointFive (updatePhysics onePointFive g)))).
Proof.
  cbv zeta. split; [|split].
  - reflexivity.
  - reflexivity.
  - apply (pruning_keeps_exactly_onscreen
             [Frame one; Frame one; KeyDown 32; Frame zero; Frame one]
             staticHandles onePointFive); reflexivity.
Defined.

(** ** Spawn cadence *)

(** C3, as stated, fails.  Four frames of 1.5 s make 6 s, which crosses the
    multiples 2, 4 and 6 of the spawn interval, yet only two obstacles are
    spawned: at the second frame the accumulator holds 3.0 and is reset to 0,
    not to the remainder 1.0.  The same 6 s cut into six frames of 1 s spawn
    three. *)
Lemma spawn_cadence_counterexample :
  let dts := [onePointFive; onePointFive; onePointFive; onePointFive] in
  forallb nonneg dts = true /\
  crossings dts = 3%Z /\
  spawnedDuring dts start = 2 /\
  Z.of_nat (spawnedDuring dts start) <> crossings dts /\
  spikeSpawnTimer (run (frames [onePointFive; onePointFive]) start) = zero /\
  Qeq (elapsed [one; one; one; one; one; one]) (elapsed dts) /\
  spawnedDuring [one; one; one; one; one; one] start = 3.
Proof.
  cbv zeta. repeat split; try (vm_compute; reflexivity).
  vm_compute. discriminate.
Qed.

(** C3, amended.  Each frame adds [dt] to the spawn accumulator; when the sum
    is at or above the spawn interval the frame spawns exactly one obstacle and
    the accumulator restarts from 0, the time past the interval being
    dropped; otherwise the frame spawns nothing and the accumulator keeps the
    sum.  So the number of obstacles spawned over any sequence of frames is
    the count of that resetting accumulator, which depends on how the time is
    cut into frames; four frames of 1 s spawn exactly two obstacles. *)
Theorem spawn_resets_accumulator :
  forall (dts : list float) (dt : float) (g : Globals),
    spawnedInFrame dt g = (if spawnDue dt g then 1 else 0) /\
    spikeSpawnTimer (exec (step dt) g)
      = (if spawnDue dt g then zero else F32.add (spikeSpawnTimer g) dt) /\
    spawnedDuring dts g = resetCadence (spikeSpawnTimer g) dts /\
    spawnedDuring [one; one; one; one] start = 2.
Proof.
  assert (E : forall dt g, spawnDue dt (updatePhysics dt g) = spawnDue dt g).
  { intros dt g. unfold spawnDue.
    destruct (updatePhysics_frame dt g) as (_ & -> & _). reflexivity. }
  assert (F : forall dt g,
             spawnedInFrame dt g = (if spawnDue dt g then 1 else 0)).
  { intros dt g. unfold spawnedInFrame. rewrite spawnedBy_due, E.
    reflexivity. }
  assert (T : forall dt g,
             spikeSpawnTimer (exec (step dt) g)
             = (if spawnDue dt g then zero
                else F32.add (spikeSpawnTimer g) dt)).
  { intros dt g. rewrite exec_step, exec_checkCollisions.
    assert (R : forall g1, spikeSpawnTimer (resetState g1) = spikeSpawnTimer g1)
      by reflexivity.
    destruct existsb; [rewrite R|];
      rewrite spikeSpawnTimer_beforeScan, spawnSpikes_timer, E;
      destruct (updatePhysics_frame dt g) as (_ & -> & _); reflexivity. }
  intros dts dt g. repeat split.
  - apply F.
  - apply T.
  - revert g. induction dts as [|d dts IH]; intro g; simpl.
    + reflexivity.
    + rewrite F, IH, T. unfold spawnDue.
      destruct F32.ge; reflexivity.
Qed.

(** ** Free fall *)

(** C6.  From the initial state, three frames of 1 s without a jump bring the
    velocity to 3 * gravity, the position goes down strictly at each of the
    three frames and is still above the ground; the fourth frame clamps it at
    the ground level with velocity 0.  In every frame the physics block adds
    [gravity * dt] to the velocity and then the new velocity, not scaled by
    [dt], to the position (before the ground clamp). *)
Theorem free_fall_three_frames :
  forall h : GLHandles,
    let g0 := initial h in
    let g1 := exec (step one) g0 in
    let g2 := exec (step one) g1 in
    let g3 := exec (step one) g2 in
    let g4 := exec (step one) g3 in
    (playerVelocity g3 = F32.mul three gravity /\
     playerVelocity g3 = F32.add (F32.add gravity gravity) gravity /\
     F32.lt (playerY g1) (playerY g0) = true /\
     F32.lt (playerY g2) (playerY g1) = true /\
     F32.lt (playerY g3) (playerY g2) = true /\
     F32.lt groundLevel (playerY g3) = true /\
     F32.lt (playerY g4) (playerY g3) = true /\
     playerY g4 = groundLevel /\ playerVelocity g4 = zero) /\
    forall (dt : float) (g : Globals),
      let v := F32.add (playerVelocity g) (F32.mul gravity dt) in
      let p := F32.add (playerY g) v in
      playerVelocity (updatePhysics dt g)
        = (if F32.lt p groundLevel then zero else v) /\
      playerY (updatePhysics dt g)
        = (if F32.lt p groundLevel then groundLevel else p).
Proof.
  intro h. cbv zeta. split.
  - repeat split; vm_compute; reflexivity.
  - intros dt g. rewrite updatePhysics_eq. cbv zeta.
    destruct F32.lt; split; reflexivity.
Qed.

(** ** Scrolling *)

(** C7, as stated, fails.  A spike at the spawn abscissa 1.2f, advanced by one
    frame of 1 s, is at 2^-23, far from being under the threshold, and it is
    not pruned. *)
Lemma spike_survives_first_frame :
  spikes airborne = [newSpike] /\
  spikes (scroll one airborne)
    = [ {| x := S754_finite false 8388608 (-46); y := groundLevel |} ] /\
  spikes (scroll one airborne) <> [] /\
  spikes (exec (step one) airborne) <> [].
Proof.
  repeat split; try (vm_compute; reflexivity); vm_compute; discriminate.
Qed.

(** C7, amended.  Each frame takes [scrollSpeed * dt * 60], computed in
    binary32, off the abscissa of every spike; for [dt] = 1 s this is
    1.19999993, one unit in the last place under 1.2f.  A spike spawned at
    1.2f is at 2^-23 after the first frame that advances it, at -1.19999981
    after the second, neither of which is below the threshold -1.2f, and is
    pruned in the third. *)
Theorem spike_pruned_in_third_frame :
  forall (dt : float) (s : Spike),
    x (moveSpike dt s)
      = F32.sub (x s) (F32.mul (F32.mul scrollSpeed dt) sixty) /\
    y (moveSpike dt s) = y s /\
    F32.mul (F32.mul scrollSpeed one) sixty
      = S754_finite false 10066329 (-23) /\
    spawnX = S754_finite false 10066330 (-23) /\
    let g1 := scroll one airborne in
    let g2 := scroll one g1 in
    let g3 := scroll one g2 in
    spikes g1 = [ {| x := S754_finite false 8388608 (-46); y := groundLevel |} ] /\
    spikes g2 = [ {| x := S754_finite true 10066328 (-23); y := groundLevel |} ] /\
    spikes g3 = [].
Proof.
  intros dt s. cbv zeta.
  repeat split; vm_compute; reflexivity.
Qed.

(** * Beyond the frame step: start-up, output, clock *)

(** ** Start-up: stepping lemmas *)

Lemma skipn_length_app {A} (t l : list A) : skipn (List.length t) (t ++ l) = l.
Proof. induction t; simpl; auto. Qed.

Lemma since_extend s l : Startup.since s (Startup.extend s l) = l.
Proof. apply skipn_length_app. Qed.

Lemma extend_nil s : Startup.extend s [] = s.
Proof.
  destruct s. unfold Startup.extend. simpl. rewrite app_nil_r. reflexivity.
Qed.

Lemma extend_extend s l1 l2 :
  Startup.extend (Startup.extend s l1) l2 = Startup.extend s (l1 ++ l2).
Proof. unfold Startup.extend. simpl. rewrite app_assoc. reflexivity. Qed.

Lemma count_app p l1 l2 :
  Startup.count p (l1 ++ l2) = Startup.count p l1 + Startup.count p l2.
Proof. unfold Startup.count. rewrite filter_app, length_app. reflexivity. Qed.

Lemma ask_extend b r s l :
  Startup.ask b r (Startup.extend s l)
  = (Startup.answer b (Startup.trace s ++ l ++ [r]),
     Startup.extend s (l ++ [r])).
Proof.
  unfold Startup.ask, Startup.log, Startup.extend. simpl.
  rewrite <- !app_assoc. reflexivity.
Qed.

Lemma askText_extend b r s l :
  Startup.askText b r (Startup.extend s l)
  = (Startup.answerText b (Startup.trace s ++ l ++ [r]),
     Startup.extend s (l ++ [r])).
Proof.
  unfold Startup.askText, Startup.log, Startup.extend. simpl.
  rewrite <- !app_assoc. reflexivity.
Qed.

Lemma tell_extend r s l :
  Startup.tell r (Startup.extend s l) = (tt, Startup.extend s (l ++ [r])).
Proof.
  unfold Startup.tell, Startup.log, Startup.extend. simpl.
  rewrite <- !app_assoc. reflexivity.
Qed.

Ltac boot_step :=
  first [ rewrite ask_extend | rewrite askText_extend | rewrite tell_extend ];
  cbv beta iota zeta; repeat rewrite <- app_assoc; cbn [app].

Lemma compileShader_run b ty src s :
  let shader :=
    Startup.answer b (Startup.trace s ++ [Startup.glCreateShader ty]) in
  let pre := [ Startup.glCreateShader ty; Startup.glShaderSource shader src;
               Startup.glCompileShader shader;
               Startup.glGetShaderiv shader Startup.GL_COMPILE_STATUS ] in
  let status := Startup.answer b (Startup.trace s ++ pre) in
  let buffer :=
    Startup.answerText b
      (Startup.trace s ++ pre ++ [Startup.glGetShaderInfoLog shader 512]) in
  Startup.compileShader b ty src s =
  if (status =? 0)%Z then
    (0%Z,
     Startup.extend s
       (pre ++ [ Startup.glGetShaderInfoLog shader 512;
                 Startup.printf ("Shader compile error: " ++ buffer ++ newline);
                 Startup.glDeleteShader shader ]))
  else (shader, Startup.extend s pre).
Proof.
  cbv zeta. rewrite <- (extend_nil s) at 1.
  unfold Startup.compileShader, Startup.bind.
  do 4 boot_step. unfold Startup.GL_FALSE.
  destruct (_ =? 0)%Z.
  - do 3 boot_step. reflexivity.
  - reflexivity.
Qed.

(** The two outcomes of [compileShader], the browser's answers left out. *)
Lemma compileShader_cases b ty src s :
  exists shader text,
    let pre := [ Startup.glCreateShader ty; Startup.glShaderSource shader src;
                 Startup.glCompileShader shader;
                 Startup.glGetShaderiv shader Startup.GL_COMPILE_STATUS ] in
    Startup.compileShader b ty src s
      = (0%Z, Startup.extend s
                (pre ++ [ Startup.glGetShaderInfoLog shader 512;
                          Startup.printf text;
                          Startup.glDeleteShader shader ]))
    \/ Startup.compileShader b ty src s = (shader, Startup.extend s pre).
Proof.
  pose proof (compileShader_run b ty src s) as H. cbv zeta in H.
  match type of H with
  | _ = if _ then (_, Startup.extend _ (_ ++ [_; Startup.printf ?txt; _])) else (?sh, _) =>
      exists sh, txt
  end.
  cbv zeta. destruct (_ =? 0)%Z; [left | right]; exact H.
Qed.

(** X2.  [compileShader] creates exactly one shader object of the given
    type.  When the browser reports the compile status [GL_FALSE] it prints
    one message, deletes that shader as its last call and returns 0;
    otherwise it returns the shader name the browser gave, deletes nothing
    and prints nothing.  Its calls are appended to those made before. *)
Theorem compileShader_rejects_cleanly :
  forall (b : Startup.Browser) (type : Z) (source : string) (s : Startup.Boot),
    let shader :=
      Startup.answer b (Startup.trace s ++ [Startup.glCreateShader type]) in
    let status :=
      Startup.answer b
        (Startup.trace s ++
         [ Startup.glCreateShader type; Startup.glShaderSource shader source;
           Startup.glCompileShader shader;
           Startup.glGetShaderiv shader Startup.GL_COMPILE_STATUS ]) in
    let r := fst (Startup.compileShader b type source s) in
    let s' := snd (Startup.compileShader b type source s) in
    let new := Startup.since s s' in
    s' = Startup.extend s new /\
    filter Startup.isCreateShader new = [Startup.glCreateShader type] /\
    (if (status =? 0)%Z then
       r = 0%Z /\
       filter Startup.isDeleteShader new = [Startup.glDeleteShader shader] /\
       Startup.count Startup.isPrint new = 1 /\
       last new (Startup.glCreateShader type) = Startup.glDeleteShader shader
     else
       r = shader /\
       filter Startup.isDeleteShader new = [] /\
       Startup.count Startup.isPrint new = 0).
Proof.
  intros b type source s. cbv zeta.
  rewrite (compileShader_run b type source s). cbv zeta.
  set (shader := Startup.answer b _).
  destruct (_ =? 0)%Z; cbn [fst snd]; rewrite since_extend;
    repeat split; reflexivity.
Qed.

Lemma createProgram_run b vsSource fsSource s :
  let '(vs, s1) :=
    Startup.compileShader b Startup.GL_VERTEX_SHADER vsSource s in
  let '(fs, s2) :=
    Startup.compileShader b Startup.GL_FRAGMENT_SHADER fsSource s1 in
  let prog := Startup.answer b (Startup.trace s2 ++ [Startup.glCreateProgram]) in
  let link := [ Startup.glCreateProgram; Startup.glAttachShader prog vs;
                Startup.glAttachShader prog fs; Startup.glLinkProgram prog;
                Startup.glGetProgramiv prog Startup.GL_LINK_STATUS ] in
  let status := Startup.answer b (Startup.trace s2 ++ link) in
  let buffer :=
    Startup.answerText b
      (Startup.trace s2 ++ link ++ [Startup.glGetProgramInfoLog prog 512]) in
  Startup.createProgram b vsSource fsSource s =
  if ((vs =? 0)%Z || (fs =? 0)%Z)%bool then (0%Z, s2)
  else if (status =? 0)%Z then
    (0%Z,
     Startup.extend s2
       (link ++ [ Startup.glGetProgramInfoLog prog 512;
                  Startup.printf ("Program link error: " ++ buffer ++ newline);
                  Startup.glDeleteProgram prog ]))
  else
    (prog,
     Startup.extend s2
       (link ++ [Startup.glDeleteShader vs; Startup.glDeleteShader fs])).
Proof.
  unfold Startup.createProgram, Startup.bind.
  destruct (Startup.compileShader b Startup.GL_VERTEX_SHADER vsSource s)
    as [vs s1].
  destruct (Startup.compileShader b Startup.GL_FRAGMENT_SHADER fsSource s1)
    as [fs s2].
  cbv zeta.
  destruct ((vs =? 0)%Z || (fs =? 0)%Z)%bool; [reflexivity|].
  rewrite <- (extend_nil s2) at 1.
  do 5 boot_step. unfold Startup.GL_FALSE.
  destruct (_ =? 0)%Z.
  - do 3 boot_step. reflexivity.
  - do 2 boot_step. reflexivity.
Qed.

(** X3.  [createProgram] compiles the vertex shader, then the fragment
    shader.  When either result is 0 it returns 0 at once, with no further
    call: a shader that did compile is not deleted.  When both compiled and
    the link status is [GL_FALSE] it prints one message, deletes the program
    and returns 0, again without deleting the two shaders.  Only when the
    link succeeds does it delete the vertex and the fragment shader, in this
    order, keep the program and return its name. *)
Theorem createProgram_failure_leaves_shaders :
  forall (b : Startup.Browser) (vsSource fsSource : string) (s : Startup.Boot),
    let '(vs, s1) :=
      Startup.compileShader b Startup.GL_VERTEX_SHADER vsSource s in
    let '(fs, s2) :=
      Startup.compileShader b Startup.GL_FRAGMENT_SHADER fsSource s1 in
    let '(r, s') := Startup.createProgram b vsSource fsSource s in
    let rest := Startup.since s2 s' in
    let prog :=
      Startup.answer b (Startup.trace s2 ++ [Startup.glCreateProgram]) in
    let status :=
      Startup.answer b
        (Startup.trace s2 ++
         [ Startup.glCreateProgram; Startup.glAttachShader prog vs;
           Startup.glAttachShader prog fs; Startup.glLinkProgram prog;
           Startup.glGetProgramiv prog Startup.GL_LINK_STATUS ]) in
    if ((vs =? 0)%Z || (fs =? 0)%Z)%bool then
      r = 0%Z /\ s' = s2
    else if (status =? 0)%Z then
      r = 0%Z /\
      Startup.count Startup.isDeleteShader rest = 0 /\
      filter Startup.isDeleteProgram rest = [Startup.glDeleteProgram prog] /\
      Startup.count Startup.isPrint rest = 1
    else
      r = prog /\
      filter Startup.isDeleteShader rest
        = [Startup.glDeleteShader vs; Startup.glDeleteShader fs] /\
      Startup.count Startup.isDeleteProgram rest = 0.
Proof.
  intros b vsSource fsSource s.
  pose proof (createProgram_run b vsSource fsSource s) as H.
  destruct (Startup.compileShader b Startup.GL_VERTEX_SHADER vsSource s)
    as [vs s1].
  destruct (Startup.compileShader b Startup.GL_FRAGMENT_SHADER fsSource s1)
    as [fs s2].
  cbv zeta in H. rewrite H. cbv zeta.
  set (prog := Startup.answer b _).
  destruct ((vs =? 0)%Z || (fs =? 0)%Z)%bool; [split; reflexivity|].
  destruct (_ =? 0)%Z; rewrite since_extend; repeat split; reflexivity.
Qed.

(** What [createProgram] requests, the browser's answers left out. *)
Lemma createProgram_cases b vsSource fsSource s :
  exists r l,
    Startup.createProgram b vsSource fsSource s = (r, Startup.extend s l) /\
    Startup.count Startup.isCreateShader l = 2 /\
    Startup.count Startup.isCreateProgram l <= 1 /\
    Startup.count Startup.isCreateContext l = 0 /\
    Startup.count Startup.isMakeCurrent l = 0 /\
    Startup.count Startup.isSetMainLoop l = 0 /\
    Startup.count Startup.isGenBuffers l = 0 /\
    Startup.count Startup.isBufferData l = 0 /\
    (forall p sh, In (Startup.glAttachShader p sh) l ->
                  sh <> 0%Z /\ In (Startup.glCompileShader sh) l) /\
    (r <> 0%Z ->
     In (Startup.glLinkProgram r) l /\
     Startup.count Startup.isDeleteProgram l = 0 /\
     Startup.count Startup.isAttachShader l = 2 /\
     Startup.count Startup.isDeleteShader l = 2 /\
     Startup.count Startup.isPrint l = 0).
Proof.
  pose proof (createProgram_run b vsSource fsSource s) as H.
  destruct (compileShader_cases b Startup.GL_VERTEX_SHADER vsSource s)
    as (sh1 & txt1 & C1).
  cbv zeta in C1.
  destruct C1 as [C1|C1]; rewrite C1 in H;
    match type of H with
    | context [Startup.compileShader b ?ty ?src ?s1] =>
        destruct (compileShader_cases b ty src s1) as (sh2 & txt2 & C2)
    end;
    cbv zeta in C2; destruct C2 as [C2|C2]; rewrite C2 in H;
    cbv zeta in H; rewrite ?extend_extend in H;
    cbn [Startup.extend Startup.trace] in H;
    repeat rewrite <- app_assoc in H; cbn [app] in H;
    match type of H with
    | context [Startup.answer b (?t ++ ?l)] =>
        generalize dependent (Startup.answer b (t ++ l)); intros prog H
    end;
    match type of H with
    | context [Startup.answer b (?t ++ ?l)] =>
        generalize dependent (Startup.answer b (t ++ l)); intros status H
    end;
    match type of H with
    | context [Startup.answerText b (?t ++ ?l)] =>
        generalize dependent (Startup.answerText b (t ++ l)); intros buf H
    end.
  all: cbn [Z.eqb orb] in H.
  all: repeat match type of H with
              | context [(?a =? 0)%Z] =>
                  destruct (Z.eqb_spec a 0); cbn [orb] in H
              end.
  all: rewrite H; eexists; eexists; (split; [reflexivity|]).
  all: repeat (split; [first [reflexivity | cbv; lia]|]).
  all: split;
    [ intros p sh Hin; cbn [In] in Hin;
      repeat (destruct Hin as [Hin|Hin]; [try discriminate|]);
      try contradiction;
      try (injection Hin as <- <-; split; [assumption | cbn [In]; tauto])
    | intro Hr; try (exfalso; apply Hr; reflexivity);
      repeat split; try reflexivity; cbn [In]; tauto ].
Qed.


Ltac boot_unfold :=
  cbv [Startup.initGL Startup.initContext
       Startup.bind Startup.ret Startup.ask Startup.askText Startup.tell
       Startup.log Startup.set_context Startup.get_context
       Startup.set_handles Startup.get_handles Startup.extend
       Startup.trace Startup.context Startup.handles
       Startup.GL_FALSE fst snd].

Ltac boot_norm :=
  cbv [Startup.since Startup.trace Startup.context Startup.handles fst snd];
  repeat rewrite <- app_assoc in *; cbn [app] in *;
  rewrite ?skipn_length_app.

(** X1.  [initContext] asks the browser for a WebGL 2 context on "#canvas"
    first and, only when the handle it gets is not positive, once more for
    a WebGL 1 context; the stored handle is the last one it got.  It makes
    the context current exactly when the stored handle is positive, with
    that handle, and otherwise makes no context current.  It prints one
    message, or two when it fell back, and touches no GL handle. *)
Theorem initContext_falls_back :
  forall (b : Startup.Browser) (s : Startup.Boot),
    let first :=
      [ Startup.emscripten_webgl_init_context_attributes;
        Startup.emscripten_webgl_create_context "#canvas" 2 ] in
    let a2 := Startup.answer b (Startup.trace s ++ first) in
    let a1 :=
      Startup.answer b
        (Startup.trace s ++ first ++
         [ Startup.printf
             ("WebGL 2.0 not supported. Trying WebGL 1.0..." ++ newline);
           Startup.emscripten_webgl_create_context "#canvas" 1 ]) in
    let s' := snd (Startup.initContext b s) in
    let new := Startup.since s s' in
    Startup.trace s' = Startup.trace s ++ new /\
    Startup.handles s' = Startup.handles s /\
    Startup.context s' = (if (a2 <=? 0)%Z then a1 else a2) /\
    filter Startup.isCreateContext new =
      Startup.emscripten_webgl_create_context "#canvas" 2 ::
      (if (a2 <=? 0)%Z
       then [Startup.emscripten_webgl_create_context "#canvas" 1] else []) /\
    filter Startup.isMakeCurrent new =
      (if (0 <? Startup.context s')%Z
       then [Startup.emscripten_webgl_make_context_current (Startup.context s')]
       else []) /\
    Startup.count Startup.isPrint new = (if (a2 <=? 0)%Z then 2 else 1).
Proof.
  intros b [c h t]. cbv zeta. boot_unfold. boot_norm.
  repeat (match goal with
          | |- context [(?a <=? 0)%Z] =>
              destruct (Z.leb_spec a 0); try lia
          end; boot_unfold; boot_norm);
    match goal with
    | |- context [(0 <? ?a)%Z] => destruct (Z.ltb_spec 0 a); try lia
    end;
    repeat split; reflexivity.
Qed.

Lemma initContext_cases b s :
  exists c l,
    Startup.initContext b s
      = (tt, {| Startup.context := c; Startup.handles := Startup.handles s;
                Startup.trace := Startup.trace s ++ l |}) /\
    Startup.count Startup.isCreateShader l = 0 /\
    Startup.count Startup.isGenBuffers l = 0 /\
    Startup.count Startup.isBufferData l = 0 /\
    Startup.count Startup.isSetMainLoop l = 0 /\
    Startup.count Startup.isMakeCurrent l = (if (0 <? c)%Z then 1 else 0).
Proof.
  destruct s as [c h t]. boot_unfold. boot_norm.
  repeat (match goal with
          | |- context [(?a <=? 0)%Z] =>
              destruct (Z.leb_spec a 0); try lia
          end; boot_unfold; boot_norm);
    eexists; eexists; (split; [reflexivity|]);
    match goal with
    | |- context [(0 <? ?a)%Z] => destruct (Z.ltb_spec 0 a); try lia
    end;
    repeat split; reflexivity.
Qed.

Lemma initGL_run b s :
  let '(r, s1) :=
    Startup.createProgram b Startup.vertexShaderSource
      Startup.fragmentShaderSource s in
  exists h rest,
    Startup.initGL b s
      = (tt, {| Startup.context := Startup.context s1; Startup.handles := h;
                Startup.trace := Startup.trace s1 ++ rest |}) /\
    program h = r /\
    rest =
      [ Startup.glUseProgram (program h);
        Startup.glGetAttribLocation (program h) "aPosition";
        Startup.glGetUniformLocation (program h) "uTranslation";
        Startup.glGetUniformLocation (program h) "uScale";
        Startup.glGetUniformLocation (program h) "uColor";
        Startup.glGenBuffers 1;
        Startup.glBindBuffer GL_ARRAY_BUFFER (playerVBO h);
        Startup.glBufferData GL_ARRAY_BUFFER 48 Startup.playerVertices
          Startup.GL_STATIC_DRAW;
        Startup.glGenBuffers 1;
        Startup.glBindBuffer GL_ARRAY_BUFFER (spikeVBO h);
        Startup.glBufferData GL_ARRAY_BUFFER 24 Startup.spikeVertices
          Startup.GL_STATIC_DRAW;
        Startup.glClearColor Startup.half Startup.half Startup.half one;
        Startup.glEnable Startup.GL_BLEND;
        Startup.glBlendFunc Startup.GL_SRC_ALPHA
          Startup.GL_ONE_MINUS_SRC_ALPHA ].
Proof.
  unfold Startup.initGL. unfold Startup.bind at 1.
  destruct (Startup.createProgram b Startup.vertexShaderSource
              Startup.fragmentShaderSource s) as [r [c h t]].
  boot_unfold. boot_norm.
  eexists; eexists. split; [reflexivity|]. split; reflexivity.
Qed.

(** X5.  [initGL] stores the result of [createProgram] as the program and
    goes on without testing it: whatever that result is (0 included), the
    same fourteen calls follow, in the same order: the program is used, the
    four locations are looked up in it, the player buffer (48 bytes, six
    vertices) and the spike buffer (24 bytes, three vertices) are generated,
    bound and filled, then the clear colour and blending are set.  The
    context handle is not touched. *)
Theorem initGL_does_not_check_the_program :
  forall (b : Startup.Browser) (s : Startup.Boot),
    let '(r, s1) :=
      Startup.createProgram b Startup.vertexShaderSource
        Startup.fragmentShaderSource s in
    let s' := snd (Startup.initGL b s) in
    let h := Startup.handles s' in
    program h = r /\
    Startup.context s' = Startup.context s /\
    Startup.since s1 s' =
      [ Startup.glUseProgram (program h);
        Startup.glGetAttribLocation (program h) "aPosition";
        Startup.glGetUniformLocation (program h) "uTranslation";
        Startup.glGetUniformLocation (program h) "uScale";
        Startup.glGetUniformLocation (program h) "uColor";
        Startup.glGenBuffers 1;
        Startup.glBindBuffer GL_ARRAY_BUFFER (playerVBO h);
        Startup.glBufferData GL_ARRAY_BUFFER 48 Startup.playerVertices
          Startup.GL_STATIC_DRAW;
        Startup.glGenBuffers 1;
        Startup.glBindBuffer GL_ARRAY_BUFFER (spikeVBO h);
        Startup.glBufferData GL_ARRAY_BUFFER 24 Startup.spikeVertices
          Startup.GL_STATIC_DRAW;
        Startup.glClearColor Startup.half Startup.half Startup.half one;
        Startup.glEnable Startup.GL_BLEND;
        Startup.glBlendFunc Startup.GL_SRC_ALPHA
          Startup.GL_ONE_MINUS_SRC_ALPHA ].
Proof.
  intros b s.
  pose proof (initGL_run b s) as H.
  destruct (createProgram_cases b Startup.vertexShaderSource
              Startup.fragmentShaderSource s) as (r & l & E & _).
  rewrite E in *.
  destruct H as (h & rest & Hrun & Hr & Hrest).
  rewrite Hrun. cbn [snd Startup.handles Startup.context Startup.extend].
  split; [exact Hr|]. split; [reflexivity|].
  unfold Startup.since. cbn [Startup.trace Startup.extend].
  rewrite skipn_length_app. exact Hrest.
Qed.

(** X6.  Whatever the browser answers, [main] ends by handing [mainLoop]
    to the browser, once, with fps 0 and [simulate_infinite_loop] 1, even
    when no context could be created or the shaders failed: no failure of
    the start-up stops it.  On the way it creates two shaders, generates and
    fills two buffers, and makes a context current exactly when the stored
    context handle is positive. *)
Theorem main_always_reaches_the_loop :
  forall b : Startup.Browser,
    let s' := snd (Startup.main b Startup.boot0) in
    let tr := Startup.trace s' in
    last tr Startup.glCreateProgram = Startup.emscripten_set_main_loop 0 1 /\
    Startup.count Startup.isSetMainLoop tr = 1 /\
    Startup.count Startup.isCreateShader tr = 2 /\
    Startup.count Startup.isGenBuffers tr = 2 /\
    Startup.count Startup.isBufferData tr = 2 /\
    Startup.count Startup.isMakeCurrent tr
      = (if (0 <? Startup.context s')%Z then 1 else 0).
Proof.
  intros b. cbv zeta. unfold Startup.main, Startup.bind.
  destruct (initContext_cases b Startup.boot0)
    as (c & l0 & E0 & A1 & A2 & A3 & A4 & A5).
  rewrite E0.
  set (s0 := {| Startup.context := c |}).
  pose proof (initGL_run b s0) as H.
  destruct (createProgram_cases b Startup.vertexShaderSource
              Startup.fragmentShaderSource s0)
    as (r & l1 & E1 & B1 & _ & _ & B2 & B3 & B4 & B5 & _).
  rewrite E1 in H. destruct H as (h & rest & Hrun & _ & Hrest).
  rewrite Hrun. unfold Startup.tell, Startup.log.
  cbn [snd Startup.trace Startup.context Startup.handles Startup.extend s0
       Startup.boot0 app].
  rewrite last_last.
  rewrite !count_app, A1, A2, A3, A4, A5, B1, B2, B3, B4, B5, Hrest.
  repeat split; try reflexivity.
  destruct (0 <? c)%Z; reflexivity.
Qed.

(** ** What the frame functions output *)

Lemma output_emit e g : output (emit e) g = [e].
Proof. reflexivity. Qed.

Lemma output_gets A (f : Globals -> A) g : output (gets f) g = [].
Proof. reflexivity. Qed.

Lemma output_modify f g : output (modify f) g = [].
Proof. reflexivity. Qed.

Lemma output_for_each (body : Spike -> M unit) :
  (forall s g, exec (body s) g = g) ->
  forall l g,
    output (for_each l body) g = flat_map (fun s => output (body s) g) l.
Proof.
  intros Hbody. induction l as [|s l IH]; intro g; simpl.
  - reflexivity.
  - rewrite output_bind, Hbody, IH. reflexivity.
Qed.

Lemma output_render g :
  output render g =
    (drawPlayer (gl g) (playerY g) ++ bindSpikes (gl g) ++
     flat_map (drawSpike (gl g)) (spikes g) ++
     [glDisableVertexAttribArray (aPositionLoc (gl g))])%list.
Proof.
  unfold render.
  repeat first
    [ rewrite output_bind
    | rewrite exec_bind
    | rewrite exec_emit
    | rewrite exec_gets
    | rewrite output_emit
    | rewrite output_gets
    | rewrite exec_for_each by reflexivity
    | rewrite output_for_each by reflexivity ].
  reflexivity.
Qed.

Lemma draws_flat_map h l :
  List.length (filter isDraw (flat_map (drawSpike h) l)) = List.length l.
Proof. induction l as [|s l IH]; simpl; auto. Qed.

Lemma printfs_flat_map h l : filter isPrintf (flat_map (drawSpike h) l) = [].
Proof. induction l as [|s l IH]; simpl; auto. Qed.


Lemma output_checkCollisions g :
  output checkCollisions g =
  if existsb (overlaps (playerY g)) (spikes g) then collisionMessage else [].
Proof.
  unfold checkCollisions. rewrite output_bind, output_gets. simpl fst.
  rewrite exec_gets. cbn [app].
  destruct (existsb (overlaps (playerY g)) (spikes g)) eqn:H.
  - destruct (first_hit _ _ H) as (pre & s & post & -> & Hpre & Hs).
    unfold output at 1. rewrite collisionLoop_first_hit by assumption.
    reflexivity.
  - unfold output at 1.
    rewrite (collisionLoop_no_hit (playerY g)) by auto. reflexivity.
Qed.

Lemma output_step dt g :
  output (step dt) g =
  if existsb (overlaps (playerY (beforeScan dt g))) (spikes (beforeScan dt g))
  then collisionMessage else [].
Proof.
  unfold step.
  repeat (rewrite output_bind, output_modify; simpl fst; rewrite exec_modify;
          cbn [app]).
  apply output_checkCollisions.
Qed.

Lemma output_update t g :
  output (update t) g
  = output (step (deltaTimeAt t g)) (set_lastFrameTime t g).
Proof.
  unfold update. rewrite output_bind, output_gets. simpl fst.
  rewrite exec_gets. cbn [app].
  rewrite output_bind, output_modify. reflexivity.
Qed.

(** X8.  One [update] prints the collision message, once, exactly when a
    spike that survived pruning overlaps the player, and then leaves no
    spike; when none overlaps it prints nothing and ends in the state built
    by the physics, spawn, move and prune blocks.  In both cases it stores
    the time it was given as the last frame time and leaves the GL handles
    as they are. *)
Theorem update_prints_only_on_collision :
  forall (currentTime : double) (g : Globals),
    let g1 :=
      beforeScan (deltaTimeAt currentTime g)
                 (set_lastFrameTime currentTime g) in
    let hit := existsb (overlaps (playerY g1)) (spikes g1) in
    output (update currentTime) g = (if hit then collisionMessage else []) /\
    (if hit then spikes (exec (update currentTime) g) = []
     else exec (update currentTime) g = g1) /\
    lastFrameTime (exec (update currentTime) g) = currentTime /\
    gl (exec (update currentTime) g) = gl g.
Proof.
  intros t g. cbv zeta.
  rewrite output_update, output_step, exec_update, exec_step,
    exec_checkCollisions.
  set (g1 := beforeScan (deltaTimeAt t g) (set_lastFrameTime t g)).
  assert (L : lastFrameTime g1 = t /\ gl g1 = gl g).
  { unfold g1, beforeScan. simpl.
    destruct (spawnSpikes_frame (deltaTimeAt t g)
                (updatePhysics (deltaTimeAt t g) (set_lastFrameTime t g)))
      as (_ & _ & _ & -> & ->).
    destruct (updatePhysics_frame (deltaTimeAt t g) (set_lastFrameTime t g))
      as (_ & _ & -> & ->).
    split; reflexivity. }
  destruct L as [L1 L2].
  destruct (existsb _ _); repeat split; simpl; assumption.
Qed.

Lemma exec_render g : exec render g = g.
Proof.
  unfold render.
  repeat first
    [ rewrite exec_bind
    | rewrite exec_emit
    | rewrite exec_gets
    | rewrite exec_for_each by reflexivity ].
  reflexivity.
Qed.

(** X9.  [mainLoop] ends in the state [update] leaves for the clock
    reading divided by 1000; its outside calls are those of [update]
    followed by those of [render] on that new state, so a frame draws one
    shape more than there are spikes after its update, and prints at most
    one line. *)
Theorem mainLoop_is_update_then_render :
  forall (now : double) (g : Globals),
    let t := F64.div now thousand in
    let g' := exec (update t) g in
    exec (mainLoop now) g = g' /\
    output (mainLoop now) g = (output (update t) g ++ output render g')%list /\
    List.length (filter isDraw (output (mainLoop now) g))
      = 1 + List.length (spikes g') /\
    List.length (filter isPrintf (output (mainLoop now) g)) <= 1.
Proof.
  intros now g. cbv zeta. unfold mainLoop. cbv zeta.
  rewrite exec_bind, output_bind, exec_render.
  set (t := F64.div now thousand).
  split; [reflexivity|]. split; [reflexivity|].
  rewrite !filter_app, !length_app, output_render.
  rewrite !filter_app, !length_app, draws_flat_map, printfs_flat_map.
  rewrite output_update, output_step.
  destruct (existsb _ _); simpl; lia.
Qed.

(** ** Key presses between two frames *)

Lemma onKeyDown_other k g : (k =? 32)%Z = false -> onKeyDown k g = (tt, g, []).
Proof. intro H. unfold onKeyDown. rewrite H. reflexivity. Qed.

Lemma exec_jump g :
  exec (onKeyDown 32) g =
  if isOnGround g then set_isOnGround false (set_playerVelocity jumpVelocity g)
  else g.
Proof.
  unfold onKeyDown. simpl (32 =? 32)%Z. cbv iota.
  rewrite exec_bind. simpl fst. rewrite exec_gets.
  destruct (isOnGround g); reflexivity.
Qed.

Lemma exec_jump_twice g :
  exec (onKeyDown 32) (exec (onKeyDown 32) g) = exec (onKeyDown 32) g.
Proof.
  rewrite (exec_jump g). destruct (isOnGround g) eqn:E.
  - rewrite exec_jump. reflexivity.
  - rewrite exec_jump, E. reflexivity.
Qed.

(** X10.  Any number of key presses between two frames acts as a single
    press of the space key when the space key (code 32) is among them, and
    as nothing otherwise: other keys are ignored and a second jump needs a
    landing in between.  No key press makes an outside call. *)
Theorem key_presses_jump_at_most_once :
  forall (keys : list Z) (g : Globals),
    run (map KeyDown keys) g =
      (if existsb (Z.eqb 32) keys then exec (onKeyDown 32) g else g) /\
    (forall k, output (onKeyDown k) g = []).
Proof.
  intros keys g. split.
  - revert g. induction keys as [|k keys IH]; intro g;
      cbn [map run existsb call].
    + reflexivity.
    + rewrite IH. destruct (Z.eqb_spec 32 k) as [<-|Hk]; cbn [orb].
      * destruct (existsb (Z.eqb 32) keys);
          [apply exec_jump_twice | reflexivity].
      * assert (E : exec (onKeyDown k) g = g).
        { unfold exec. rewrite onKeyDown_other; [reflexivity|].
          apply Z.eqb_neq. congruence. }
        rewrite E. reflexivity.
  - intros k. unfold onKeyDown. destruct (k =? 32)%Z; [|reflexivity].
    rewrite output_bind. simpl fst. rewrite exec_gets.
    destruct (isOnGround g); reflexivity.
Qed.

(** ** The ground flag *)

(** X11.  [update] never clears the ground flag: the flag after a frame is
    the flag before it, or true when the player landed, that is when the
    integrated ordinate fell below the ground level or a collision reset
    the game.  On landing the player is on the ground level with velocity
    0; otherwise the ordinate and the velocity are the integrated ones. *)
Theorem update_sets_ground_flag_on_landing :
  forall (dt : float) (g : Globals),
    let v := F32.add (playerVelocity g) (F32.mul gravity dt) in
    let p := F32.add (playerY g) v in
    let g1 := beforeScan dt g in
    let landed :=
      (F32.lt p groundLevel
       || existsb (overlaps (playerY g1)) (spikes g1))%bool in
    let g' := exec (step dt) g in
    isOnGround g' = (isOnGround g || landed)%bool /\
    (if landed
     then playerY g' = groundLevel /\ playerVelocity g' = zero
     else playerY g' = p /\ playerVelocity g' = v).
Proof.
  intros dt g. cbv zeta.
  rewrite exec_step, exec_checkCollisions.
  assert (E : playerY (beforeScan dt g) = playerY (updatePhysics dt g) /\
              playerVelocity (beforeScan dt g)
                = playerVelocity (updatePhysics dt g) /\
              isOnGround (beforeScan dt g) = isOnGround (updatePhysics dt g)).
  { unfold beforeScan. simpl.
    destruct (spawnSpikes_frame dt (updatePhysics dt g)) as (-> & -> & -> & _).
    auto. }
  destruct E as (E1 & E2 & E3).
  destruct (existsb _ _).
  - rewrite orb_true_r, orb_true_r. repeat split.
  - rewrite orb_false_r, E1, E2, E3. rewrite updatePhysics_eq. cbv zeta.
    destruct (F32.lt _ groundLevel); simpl.
    + rewrite orb_true_r. repeat split.
    + rewrite orb_false_r. repeat split.
Qed.

(** ** Spikes stay on the ground line *)

Lemma step_spikesOnGround dt g :
  spikesOnGround g -> spikesOnGround (exec (step dt) g).
Proof.
  unfold spikesOnGround. intro H.
  rewrite exec_step, exec_checkCollisions.
  destruct existsb; [constructor|].
  unfold beforeScan. simpl. rewrite spawnSpikes_spikes.
  destruct (updatePhysics_frame dt g) as (-> & _).
  rewrite Forall_forall in *. intros s Hs.
  apply erase_remove_if_In in Hs. destruct Hs as [Hs _].
  apply in_map_iff in Hs. destruct Hs as (s0 & <- & Hs0). simpl.
  destruct spawnDue; [|apply H, Hs0].
  apply in_app_or in Hs0. destruct Hs0 as [Hs0|[<-|[]]];
    [apply H, Hs0 | reflexivity].
Qed.

(** X12.  Along every run of frames and key presses from the initial
    state, whatever the frame times, every spike in the list has the
    ordinate of the ground level it was spawned with: [update] moves spikes
    along the abscissa only.  Against a player standing on the ground the
    vertical test of the collision check therefore always holds: a
    collision is decided by the abscissa alone. *)
Theorem spikes_stay_on_ground_line :
  forall (cs : list Call) (h : GLHandles),
    let g := run cs (initial h) in
    Forall (fun s => y s = groundLevel /\
                     overlaps groundLevel s = collisionX s)
           (spikes g).
Proof.
  intros cs h. cbv zeta.
  assert (H : forall g, spikesOnGround g -> spikesOnGround (run cs g)).
  { induction cs as [|c cs IH]; simpl; intros g Hg; [exact Hg|].
    apply IH. destruct c as [dt|k]; simpl.
    - apply step_spikesOnGround, Hg.
    - unfold spikesOnGround. rewrite spikes_onKeyDown. exact Hg. }
  specialize (H (initial h) (Forall_nil _)).
  unfold spikesOnGround in H. rewrite Forall_forall in *.
  intros s Hs. specialize (H s Hs). split; [exact H|].
  unfold overlaps, collisionY. rewrite H.
  destruct (collisionX s); reflexivity.
Qed.

Section Clock.
Local Open Scope Z_scope.

Lemma shr_nonneg mrs e n :
  0 <= shr_m mrs -> 0 <= shr_m (fst (shr mrs e n)).
Proof.
  intro H. unfold shr. destruct n as [|p|p]; simpl fst; try exact H.
  apply iter_shr_1_bound, H.
Qed.

Lemma binary_round_aux_signed_any prec emax s m e l :
  0 <= m -> signed s (binary_round_aux prec emax s m e l).
Proof.
  intro Hm. unfold binary_round_aux, shr_fexp.
  pose proof (shr_nonneg (shr_record_of_loc m l) e
                (fexp prec emax (Zdigits2 m + e) - e)) as H1.
  rewrite shr_m_record_of_loc in H1. specialize (H1 Hm).
  destruct (shr (shr_record_of_loc m l) e _) as [mrs1 e1]. simpl fst in H1.
  pose proof (round_nearest_even_bound (shr_m mrs1) (loc_of_shr_record mrs1))
    as Hr.
  set (r := round_nearest_even (shr_m mrs1) (loc_of_shr_record mrs1)) in *.
  pose proof (shr_nonneg (shr_record_of_loc r loc_Exact) e1
                (fexp prec emax (Zdigits2 r + e1) - e1)) as H2.
  rewrite shr_m_record_of_loc in H2. specialize (H2 ltac:(lia)).
  destruct (shr (shr_record_of_loc r loc_Exact) e1 _) as [mrs2 e2].
  simpl fst in H2.
  destruct (shr_m mrs2) as [|p|p]; try lia.
  - reflexivity.
  - destruct (e2 <=? emax - prec); reflexivity.
Qed.

Lemma binary_round_signed_any prec emax s m e :
  signed s (binary_round prec emax s m e).
Proof.
  unfold binary_round.
  destruct (shl_align m e (fexp prec emax (Zpos (digits2_pos m) + e)))
    as [mz ez].
  apply binary_round_aux_signed_any. lia.
Qed.

Lemma binary_normalize_nonneg prec emax z e :
  0 <= z -> nonnegative (binary_normalize prec emax z e false).
Proof.
  destruct z as [|p|p]; intro H; try lia.
  - exact I.
  - apply signed_false_nonnegative, binary_round_signed_any.
Qed.

(** Of two canonical binary64 numbers, the one with the smaller exponent is
    the smaller. *)
Lemma canonical_exponent_lt m1 e1 m2 e2 :
  bounded F64.prec F64.emax m1 e1 = true ->
  bounded F64.prec F64.emax m2 e2 = true ->
  e1 < e2 ->
  Zpos m1 < Zpos m2 * 2 ^ (e2 - e1).
Proof.
  unfold bounded, canonical_mantissa, fexp, emin, F64.prec, F64.emax.
  intros H1 H2 Hlt.
  apply andb_true_iff in H1. destruct H1 as [H1 _].
  apply andb_true_iff in H2. destruct H2 as [H2 _].
  apply Z.eqb_eq in H1. apply Z.eqb_eq in H2.
  pose proof (digits2_pos_bound m1) as [_ U1].
  pose proof (digits2_pos_bound m2) as [L2 _].
  assert (D1 : Zpos (digits2_pos m1) <= 53) by lia.
  assert (D2 : Zpos (digits2_pos m2) = 53) by lia.
  rewrite D2 in L2.
  assert (Zpos m1 < 2 ^ 53).
  { apply Z.lt_le_trans with (2 ^ Zpos (digits2_pos m1)); [exact U1|].
    apply Z.pow_le_mono_r; lia. }
  assert (2 ^ 1 <= 2 ^ (e2 - e1)) by (apply Z.pow_le_mono_r; lia).
  change (2 ^ 53) with (2 ^ 52 * 2 ^ 1) in H.
  change (2 ^ (53 - 1)) with (2 ^ 52) in L2.
  nia.
Qed.

Lemma sub_finite_any prec emax sx mx ex sy my ey :
  SFsub prec emax (S754_finite sx mx ex) (S754_finite sy my ey)
  = binary_normalize prec emax
      (cond_Zopp sx (Zpos mx * 2 ^ (ex - Z.min ex ey))
       - cond_Zopp sy (Zpos my * 2 ^ (ey - Z.min ex ey)))
      (Z.min ex ey) false.
Proof.
  rewrite <- (shl_align_fst mx ex (Z.min ex ey)) by lia.
  rewrite <- (shl_align_fst my ey (Z.min ex ey)) by lia.
  reflexivity.
Qed.

Lemma clock_difference_nonnegative last t :
  readable last = true -> readable t = true -> SFleb last t = true ->
  nonnegative (F64.sub t last).
Proof.
  intros Rl Rt Hle.
  destruct last as [sl|sl| |sl ml el]; try discriminate;
    destruct t as [st|st| |st mt et]; try discriminate.
  - destruct st, sl; exact I.
  - destruct st; [discriminate | reflexivity].
  - destruct sl; [reflexivity | discriminate].
  - unfold F64.sub. rewrite sub_finite_any.
    apply binary_normalize_nonneg.
    simpl in Rl, Rt. unfold SFleb, SFcompare in Hle.
    set (ez := Z.min et el).
    pose proof (pow2_pos (et - ez) ltac:(lia)).
    pose proof (pow2_pos (el - ez) ltac:(lia)).
    destruct sl, st; unfold cond_Zopp; try discriminate.
    + (* both negative: the later reading has the smaller magnitude *)
      destruct (Z.compare_spec el et) as [E|E|E]; try discriminate.
      * subst el. replace ez with et by lia.
        rewrite Pos.compare_cont_spec in Hle. simpl in Hle.
        destruct (Pos.compare_spec ml mt) as [E|E|E]; try discriminate;
          nia.
      * pose proof (canonical_exponent_lt mt et ml el Rt Rl E).
        replace ez with et by lia. rewrite Z.sub_diag, Z.mul_1_r. lia.
    + nia.
    + destruct (Z.compare_spec el et) as [E|E|E]; try discriminate.
      * subst el. replace ez with et by lia.
        rewrite Pos.compare_cont_spec in Hle. simpl in Hle.
        destruct (Pos.compare_spec ml mt) as [E|E|E]; try discriminate;
          nia.
      * pose proof (canonical_exponent_lt ml el mt et Rl Rt E).
        replace ez with el by lia. rewrite Z.sub_diag, Z.mul_1_r. lia.
Qed.

Lemma nonnegative_nonneg a : nonnegative a -> nonneg a = true.
Proof. destruct a as [s|s| |s m e]; simpl; intros; subst; auto; contradiction. Qed.

Lemma round_nonnegative a : nonnegative a -> nonnegative (F32.round a).
Proof.
  destruct a as [s|s| |s m e]; simpl; auto.
  intros ->. apply signed_false_nonnegative, binary_round_signed.
Qed.

End Clock.

(** X13.  When the stored last frame time and the time passed to [update]
    are binary64 numbers (not infinities, not NaN) and the new time is not
    before the stored one, the frame time [update] computes, the binary64
    difference rounded to binary32, is a number and is at least 0. *)
Theorem monotone_clock_gives_nonnegative_deltaTime :
  forall (currentTime : double) (g : Globals),
    readable (lastFrameTime g) = true ->
    readable currentTime = true ->
    SFleb (lastFrameTime g) currentTime = true ->
    nonneg (deltaTimeAt currentTime g) = true /\
    F32.is_nan (deltaTimeAt currentTime g) = false.
Proof.
  intros t g Rl Rt Hle. unfold deltaTimeAt.
  pose proof (round_nonnegative _
                (clock_difference_nonnegative _ _ Rl Rt Hle)) as H.
  split; [apply nonnegative_nonneg, H|].
  destruct (F32.round _); simpl in *; auto; contradiction.
Qed.

Lemma monotone_clock_gives_nonnegative_deltaTime_witness :
  let g := set_lastFrameTime (F64.of_Z 3) start in
  readable (lastFrameTime g) = true /\
  readable (F64.of_Z 5) = true /\
  SFleb (lastFrameTime g) (F64.of_Z 5) = true /\
  nonneg (deltaTimeAt (F64.of_Z 5) g) = true /\
  F32.is_nan (deltaTimeAt (F64.of_Z 5) g) = false.
Proof.
  cbv zeta.
  split; [reflexivity|]. split; [reflexivity|]. split; [reflexivity|].
  apply (monotone_clock_gives_nonnegative_deltaTime
           (F64.of_Z 5) (set_lastFrameTime (F64.of_Z 3) start));
    reflexivity.
Defined.

(** ** Runs of the host with a clock that never goes back *)

Lemma lastFrameTime_update t g : lastFrameTime (exec (update t) g) = t.
Proof. rewrite exec_update, step_clock. reflexivity. Qed.

Lemma lastFrameTime_onKeyDown k g :
  lastFrameTime (exec (onKeyDown k) g) = lastFrameTime g.
Proof.
  unfold onKeyDown.
  destruct (k =? 32)%Z; [|reflexivity].
  rewrite exec_bind. simpl fst. rewrite exec_gets.
  destruct (isOnGround g); reflexivity.
Qed.

Lemma measured_nonneg cs :
  forall g,
    readable (lastFrameTime g) = true ->
    ascending (lastFrameTime g) cs = true ->
    forallb nonnegCall (measured cs g) = true.
Proof.
  induction cs as [|[t|k] cs IH]; intros g Rg Hcs;
    cbn [measured forallb nonnegCall ascending] in *.
  - reflexivity.
  - apply andb_true_iff in Hcs. destruct Hcs as [Hcs Hrest].
    apply andb_true_iff in Hcs. destruct Hcs as [Rt Hle].
    apply andb_true_iff. split.
    + unfold deltaTimeAt.
      apply nonnegative_nonneg, round_nonnegative,
        clock_difference_nonnegative; assumption.
    + apply IH; cbn [hostCall]; rewrite lastFrameTime_update; assumption.
  - apply IH; cbn [hostCall]; rewrite lastFrameTime_onKeyDown; assumption.
Qed.

Lemma run_in_history cs : forall g, In (run cs g) (history cs g).
Proof.
  induction cs as [|c cs IH]; intro g; simpl.
  - left. reflexivity.
  - right. apply IH.
Qed.

Lemma gl_step dt g : gl (exec (step dt) g) = gl g.
Proof.
  rewrite exec_step, exec_checkCollisions.
  assert (E : gl (beforeScan dt g) = gl g).
  { unfold beforeScan, removeOffscreen, moveSpikes. simpl.
    destruct (spawnSpikes_frame dt (updatePhysics dt g))
      as (_ & _ & _ & _ & ->).
    destruct (updatePhysics_frame dt g) as (_ & _ & _ & ->). reflexivity. }
  destruct existsb; simpl; exact E.
Qed.

Lemma gl_onKeyDown k g : gl (exec (onKeyDown k) g) = gl g.
Proof.
  unfold onKeyDown.
  destruct (k =? 32)%Z; [|reflexivity].
  rewrite exec_bind. simpl fst. rewrite exec_gets.
  destruct (isOnGround g); reflexivity.
Qed.

Lemma gl_hostRun cs : forall g, gl (hostRun cs g) = gl g.
Proof.
  induction cs as [|[t|k] cs IH]; intro g; cbn [hostRun hostCall].
  - reflexivity.
  - rewrite IH, exec_update, gl_step. reflexivity.
  - rewrite IH, gl_onKeyDown. reflexivity.
Qed.

Lemma hostRun_safe cs g :
  readable (lastFrameTime g) = true ->
  ascending (lastFrameTime g) cs = true ->
  playerOK g -> spikesOK g -> belowGround g = false ->
  Forall (fun s => F32.ge (x s) despawnX = true) (spikes g) ->
  let g' := hostRun cs g in
  gl g' = gl g /\
  F32.ge (playerY g') groundLevel = true /\
  Forall (fun s => F32.ge (x s) despawnX = true) (spikes g').
Proof.
  intros Rg Hcs Hp Hs Hb Hon. cbv zeta.
  pose proof (measured_nonneg cs g Rg Hcs) as Hm.
  pose proof (hostRun_measured cs g g eq_refl) as E.
  assert (Ey : playerY (hostRun cs g) = playerY (run (measured cs g) g))
    by exact (f_equal playerY E).
  assert (Es : spikes (hostRun cs g) = spikes (run (measured cs g) g))
    by exact (f_equal spikes E).
  split; [apply gl_hostRun|]. split.
  - rewrite Ey.
    pose proof (never_below_any_run (measured cs g) g Hb) as H1.
    pose proof (history_playerOK (measured cs g) g Hm Hp) as H2.
    rewrite Forall_forall in H1, H2.
    specialize (H1 _ (run_in_history _ _)).
    destruct (H2 _ (run_in_history _ _)) as [Hq _].
    rewrite ge_is_not_lt;
      [ unfold belowGround in H1; rewrite H1; reflexivity
      | apply positionOK_is_number, Hq
      | reflexivity ].
  - rewrite Es. apply run_onscreen; assumption.
Qed.

(** X14.  Along every run of [update]s and key presses from the initial
    state in which the times passed to [update] are numbers that never go
    back (the first one being at least 0), the game ends with the player's
    ordinate at or above the ground level [-0.4f], every spike in the list
    at or above the despawn abscissa [-1.2f], and the GL handles it started
    with. *)
Theorem host_with_monotone_clock_is_safe :
  forall (cs : list HostCall) (h : GLHandles),
    ascending (lastFrameTime (initial h)) cs = true ->
    let g' := hostRun cs (initial h) in
    gl g' = h /\
    F32.ge (playerY g') groundLevel = true /\
    Forall (fun s => F32.ge (x s) despawnX = true) (spikes g').
Proof.
  intros cs h Hcs.
  apply (hostRun_safe cs (initial h)); try assumption; try reflexivity.
  - split; exact I.
  - constructor.
  - constructor.
Qed.

Lemma host_with_monotone_clock_is_safe_witness :
  let cs := [HostUpdate (F64.of_Z 1); HostKey 32; HostUpdate (F64.of_Z 1);
             HostUpdate (F64.of_Z 4)] in
  ascending (lastFrameTime start) cs = true /\
  gl (hostRun cs start) = staticHandles /\
  F32.ge (playerY (hostRun cs start)) groundLevel = true /\
  Forall (fun s => F32.ge (x s) despawnX = true) (spikes (hostRun cs start)).
Proof.
  cbv zeta. split; [reflexivity|].
  apply (host_with_monotone_clock_is_safe
           [HostUpdate (F64.of_Z 1); HostKey 32; HostUpdate (F64.of_Z 1);
            HostUpdate (F64.of_Z 4)] staticHandles).
  reflexivity.
Defined.

(** ** The whole program *)






(** ** The spawn accumulator *)

Lemma add_nonnegative a b :
  nonnegative a -> nonnegative b -> nonnegative (F32.add a b).
Proof.
  destruct a as [sa|sa| |sa ma ea]; try contradiction;
    destruct b as [sb|sb| |sb mb eb]; try contradiction;
    simpl nonnegative; intros Ha Hb; subst.
  - destruct sa, sb; exact I.
  - reflexivity.
  - reflexivity.
  - reflexivity.
  - reflexivity.
  - reflexivity.
  - reflexivity.
  - reflexivity.
  - rewrite add_finite. apply binary_normalize_nonneg.
    unfold cond_Zopp.
    pose proof (pow2_pos (ea - Z.min ea eb) ltac:(lia)).
    pose proof (pow2_pos (eb - Z.min ea eb) ltac:(lia)).
    nia.
Qed.

Lemma spawnSpikes_timerOK dt g :
  nonneg dt = true -> timerOK g -> timerOK (spawnSpikes dt g).
Proof.
  intros Hdt [Hn _]. unfold timerOK. rewrite spawnSpikes_timer.
  unfold spawnDue.
  pose proof (add_nonnegative _ _ Hn (nonneg_nonnegative dt Hdt)) as Ha.
  set (t := F32.add (spikeSpawnTimer g) dt) in *.
  destruct (F32.ge t spikeSpawnInterval) eqn:E.
  - split; [exact I | reflexivity].
  - split; [exact Ha|].
    rewrite ge_is_not_lt in E.
    + destruct (F32.lt t spikeSpawnInterval); [reflexivity|discriminate].
    + destruct t; simpl in *; auto; contradiction.
    + reflexivity.
Qed.

Lemma spikeSpawnTimer_step dt g :
  spikeSpawnTimer (exec (step dt) g)
  = spikeSpawnTimer (spawnSpikes dt (updatePhysics dt g)).
Proof.
  rewrite exec_step, exec_checkCollisions.
  destruct existsb; reflexivity.
Qed.

Lemma spikeSpawnTimer_onKeyDown k g :
  spikeSpawnTimer (exec (onKeyDown k) g) = spikeSpawnTimer g.
Proof.
  unfold onKeyDown.
  destruct (k =? 32)%Z; [|reflexivity].
  rewrite exec_bind. simpl fst. rewrite exec_gets.
  destruct (isOnGround g); reflexivity.
Qed.

Lemma call_timerOK c g :
  nonnegCall c = true -> timerOK g -> timerOK (call c g).
Proof.
  destruct c as [dt|k]; cbn [nonnegCall call]; intros Hc Hg.
  - unfold timerOK. rewrite spikeSpawnTimer_step.
    apply spawnSpikes_timerOK; [exact Hc|].
    unfold timerOK.
    destruct (updatePhysics_frame dt g) as (_ & -> & _). exact Hg.
  - unfold timerOK. rewrite spikeSpawnTimer_onKeyDown. exact Hg.
Qed.

(** X16.  Along every run of frames with non-negative frame times and of
    key presses from the initial state, the spawn accumulator is, in every
    state between two calls, a number that is at least 0 and strictly below
    the spawn interval of 2 seconds. *)
Theorem spawn_timer_stays_below_interval :
  forall (cs : list Call) (h : GLHandles),
    forallb nonnegCall cs = true ->
    Forall (fun g => F32.ge (spikeSpawnTimer g) zero = true /\
                     F32.lt (spikeSpawnTimer g) spikeSpawnInterval = true)
           (history cs (initial h)).
Proof.
  intros cs h Hcs.
  assert (H : forall g, forallb nonnegCall cs = true -> timerOK g ->
                        Forall timerOK (history cs g)).
  { clear. induction cs as [|c cs IH]; simpl; intros g Hcs Hg.
    - constructor; [exact Hg | constructor].
    - apply andb_true_iff in Hcs. destruct Hcs as [Hc Hcs].
      constructor; [exact Hg|]. apply IH; [exact Hcs|].
      apply call_timerOK; assumption. }
  specialize (H (initial h) Hcs (conj I eq_refl)).
  eapply Forall_impl; [|exact H].
  intros g [Hn Hlt]. split; [|exact Hlt].
  apply nonnegative_nonneg, Hn.
Qed.

Lemma spawn_timer_stays_below_interval_witness :
  let cs := [Frame one; Frame one; KeyDown 32; Frame onePointFive] in
  forallb nonnegCall cs = true /\
  Forall (fun g => F32.ge (spikeSpawnTimer g) zero = true /\
                   F32.lt (spikeSpawnTimer g) spikeSpawnInterval = true)
         (history cs start).
Proof.
  cbv zeta. split; [reflexivity|].
  apply (spawn_timer_stays_below_interval
           [Frame one; Frame one; KeyDown 32; Frame onePointFive]
           staticHandles).
  reflexivity.
Defined.
